(** * Shallow embedding of accesslog.cpp

    The program reads a merged Apache access log on stdin and appends every
    line to a per-domain, per-month log file.  C++ [std::string] values are
    modelled as [list ascii]; [long int] values as [Z]; exceptions as the
    left side of a sum type; the filesystem touched by [mkdir], [open] and
    [write] as an explicit world state. *)

From Stdlib Require Import Ascii String List ZArith Bool Lia.
Import ListNotations.

Local Open Scope list_scope.

Definition text := list ascii.

(** String literals of the source, as [text]. *)
Definition str (s : string) : text := list_ascii_of_string s.

Definition ascii_eqb (a b : ascii) : bool := Ascii.eqb a b.
Arguments ascii_eqb : simpl never.

Fixpoint text_eqb (s t : text) : bool :=
  match s, t with
  | [], [] => true
  | a :: s', b :: t' => ascii_eqb a b && text_eqb s' t'
  | _, _ => false
  end.

(** ** Exceptions thrown by the program

    All of them are [std::invalid_argument]; they differ by message. *)
Inductive error :=
| ENotInteger                (* "Not an integer" (decDecode) *)
| EInvalidMonth (m : text)   (* "Invalid month '...'" (monthDecode) *)
| EInvalidFormat             (* "Invalid date & time format" *)
| ENotFound.                 (* "Date & time not found or not complete" *)

Definition what (e : error) : text :=
  match e with
  | ENotInteger => str "Not an integer"
  | EInvalidMonth m => str "Invalid month '" ++ m ++ str "'"
  | EInvalidFormat => str "Invalid date & time format"
  | ENotFound => str "Date & time not found or not complete"
  end.

(** A small exception monad. *)
Definition throws (A : Type) := (error + A)%type.

Definition bind {A B} (m : throws A) (k : A -> throws B) : throws B :=
  match m with
  | inl e => inl e
  | inr a => k a
  end.

Notation "x <- m ;; k" := (bind m (fun x => k))
  (at level 61, m at next level, right associativity).

(** ** Characters *)

Definition NUL : ascii := ascii_of_nat 0.

(** [isspace] in the C locale: space, \t, \n, \v, \f, \r. *)
Definition is_space (c : ascii) : bool :=
  let n := nat_of_ascii c in
  Nat.eqb n 32 || (Nat.leb 9 n && Nat.leb n 13).

Definition is_digit (c : ascii) : bool :=
  Nat.leb 48 (nat_of_ascii c) && Nat.leb (nat_of_ascii c) 57.

Definition is_lower (c : ascii) : bool :=
  Nat.leb 97 (nat_of_ascii c) && Nat.leb (nat_of_ascii c) 122.

Fixpoint take_while (p : ascii -> bool) (s : text) : text :=
  match s with
  | [] => []
  | c :: s' => if p c then c :: take_while p s' else []
  end.

Fixpoint drop_while (p : ascii -> bool) (s : text) : text :=
  match s with
  | [] => []
  | c :: s' => if p c then drop_while p s' else s
  end.

(** The characters [strtol] sees through [c_str()]: up to the first NUL. *)
Definition c_str (s : text) : text := take_while (fun c => negb (ascii_eqb c NUL)) s.

(** ** [decDecode]: [strtol(decimal.c_str(), &err, 10)] then [*err != 0] *)

Definition LONG_MAX : Z := (2 ^ 63 - 1)%Z.
Definition LONG_MIN : Z := (- 2 ^ 63)%Z.

Definition digits_value (ds : text) : Z :=
  fold_left (fun acc c => (acc * 10 + (Z.of_nat (nat_of_ascii c) - 48))%Z) ds 0%Z.

(** [strtol] in base 10: skip white space, an optional sign, then the
    longest run of digits.  It returns the value (saturated at
    [LONG_MIN]/[LONG_MAX] on overflow) and the text left at the end
    pointer; with no digit at all the value is 0 and the end pointer is
    the start of the input. *)
Definition strtol (s : text) : Z * text :=
  let s1 := drop_while is_space s in
  let '(neg, s2) :=
    match s1 with
    | c :: r => if ascii_eqb c "-"%char then (true, r)
                else if ascii_eqb c "+"%char then (false, r)
                else (false, s1)
    | [] => (false, s1)
    end in
  let ds := take_while is_digit s2 in
  let rest := drop_while is_digit s2 in
  match ds with
  | [] => (0%Z, s)
  | _ => let v := digits_value ds in
         ((if neg then Z.max LONG_MIN (- v) else Z.min LONG_MAX v), rest)
  end.

Definition decDecode (decimal : text) : throws Z :=
  let '(val, err) := strtol (c_str decimal) in
  match err with
  | [] => inr val          (* *err == 0 *)
  | _ => inl ENotInteger
  end.

(** ** [decEncode]: [ostringstream << value] *)

Definition digit_char (d : Z) : ascii := ascii_of_nat (48 + Z.to_nat d).

Fixpoint digits_rev (fuel : nat) (n : Z) (acc : text) : text :=
  match fuel with
  | O => acc
  | S f =>
      let acc' := digit_char (n mod 10) :: acc in
      if (n <? 10)%Z then acc' else digits_rev f (n / 10) acc'
  end.

(** 20 digits cover every [long int]. *)
Definition decEncode (value : Z) : text :=
  if (value <? 0)%Z then "-"%char :: digits_rev 20 (- value) []
  else digits_rev 20 value [].

(** ** [leadzero] *)

Fixpoint leadzero_loop (fuel : nat) (num : nat) (ret : text) : text :=
  match fuel with
  | O => ret
  | S f => if Nat.ltb (length ret) num
           then leadzero_loop f num ("0"%char :: ret) else ret
  end.

Definition leadzero (s : text) (num : nat) : text :=
  match s with
  | c :: _ => if negb (is_digit c) then s      (* first character is not a digit *)
              else leadzero_loop num num s
  | [] => leadzero_loop num num s
  end.

(** ** [monthDecode] *)

Definition month_names : list string :=
  ["Jan"; "Feb"; "Mar"; "Apr"; "May"; "Jun";
   "Jul"; "Aug"; "Sep"; "Oct"; "Nov"; "Dec"]%string.

Fixpoint month_index (m : text) (names : list string) (k : Z) : throws Z :=
  match names with
  | [] => inl (EInvalidMonth m)
  | n :: ns => if text_eqb m (str n) then inr k else month_index m ns (k + 1)
  end.

Definition monthDecode (month : text) : throws Z := month_index month month_names 1.

(** ** [find_first] and [find_until]

    Both loop [for (pos = start; pos < str.length(); pos++)]; the loop is
    written with a fuel of [length str] (the loop never runs longer). *)

Fixpoint find_first_loop (str : text) (delim : ascii) (pos fuel : nat) : nat :=
  match fuel with
  | O => length str
  | S f =>
      match nth_error str pos with
      | Some c => if ascii_eqb c delim then pos
                  else find_first_loop str delim (S pos) f
      | None => length str
      end
  end.

Definition find_first (str : text) (delim : ascii) (start : nat) : nat :=
  find_first_loop str delim start (length str).

Fixpoint find_until_loop (str : text) (until : ascii) (pos fuel : nat) : nat :=
  match fuel with
  | O => length str
  | S f =>
      match nth_error str pos with
      | Some c => if negb (ascii_eqb c until) then pos
                  else find_until_loop str until (S pos) f
      | None => length str
      end
  end.

Definition find_until (str : text) (until : ascii) (start : nat) : nat :=
  find_until_loop str until start (length str).

(** [entry.substr(pos, n)] and [entry.substr(pos)] for [pos <= size()]. *)
Definition substr (s : text) (pos n : nat) : text := firstn n (skipn pos s).
Definition substr_from (s : text) (pos : nat) : text := skipn pos s.

(** ** [boost::char_separator] and [boost::tokenizer]

    [char_separator(dropped, "", policy)]: the program never passes kept
    delimiters.  The separator's state is the iterator [next] (here the
    text not consumed yet) and the flag [m_output_done] used by the
    [keep_empty_tokens] policy. *)

Inductive empty_token_policy := drop_empty_tokens | keep_empty_tokens.

Definition is_dropped (dropped : text) (c : ascii) : bool :=
  existsb (ascii_eqb c) dropped.

(** Append all the non-delimiter characters to the token. *)
Fixpoint take_token (dropped : text) (s : text) : text * text :=
  match s with
  | [] => ([], [])
  | c :: r =>
      if is_dropped dropped c then ([], s)
      else let '(t, r') := take_token dropped r in (c :: t, r')
  end.

(** One call of [char_separator::operator()(next, end, tok)]. *)
Definition sep_next (dropped : text) (policy : empty_token_policy)
    (next : text) (output_done : bool) : option (text * text * bool) :=
  match policy with
  | drop_empty_tokens =>
      match drop_while (is_dropped dropped) next with
      | [] => None
      | next' => let '(t, r) := take_token dropped next' in Some (t, r, output_done)
      end
  | keep_empty_tokens =>
      match next with
      | [] => if output_done then None else Some ([], [], true)
      | c :: r =>
          if negb output_done && is_dropped dropped c then Some ([], next, true)
          else
            let start := if is_dropped dropped c then r else next in
            let '(t, r') := take_token dropped start in Some (t, r', true)
      end
  end.

Fixpoint tokens_loop (dropped : text) (policy : empty_token_policy)
    (fuel : nat) (next : text) (output_done : bool) : list text :=
  match fuel with
  | O => []
  | S f =>
      match sep_next dropped policy next output_done with
      | None => []
      | Some (t, r, d) => t :: tokens_loop dropped policy f r d
      end
  end.

(** Iterating a [tokenizer]: the first token is only asked for when the
    input is not empty ([token_iterator::initialize]); every call consumes
    a character or sets [m_output_done], so [length s + 2] calls suffice. *)
Definition tokenize (dropped : text) (policy : empty_token_policy) (s : text)
    : list text :=
  match s with
  | [] => []
  | _ => tokens_loop dropped policy (length s + 2) s false
  end.

(** ** [split_domain] *)
Definition split_domain (domain : text) : list text :=
  tokenize (str ".") keep_empty_tokens domain.

(** ** [boost::regex_search] for the two patterns of the program

    A pattern is a sequence of single-character classes, possibly starred
    (greedy).  [match_here] tries the pattern at the start of the text in
    Perl backtracking order and returns the length of the match;
    [regex_search] tries every start position from left to right and
    returns the first match.  With [match_default], [.] matches every
    character, newline and NUL included. *)

Inductive cls := CLit (c : ascii) | CAny | CRange (lo hi : ascii).
Inductive atom := One (k : cls) | Star (k : cls).

Definition cls_ok (k : cls) (c : ascii) : bool :=
  match k with
  | CLit d => ascii_eqb c d
  | CAny => true
  | CRange lo hi => Nat.leb (nat_of_ascii lo) (nat_of_ascii c)
                    && Nat.leb (nat_of_ascii c) (nat_of_ascii hi)
  end.

Fixpoint match_here (p : list atom) (s : text) : option nat :=
  match p with
  | [] => Some 0
  | One k :: p' =>
      match s with
      | c :: s' => if cls_ok k c then option_map S (match_here p' s') else None
      | [] => None
      end
  | Star k :: p' =>
      (fix star (s : text) : option nat :=
         match s with
         | c :: s' =>
             if cls_ok k c then
               match star s' with
               | Some n => Some (S n)
               | None => match_here p' s
               end
             else match_here p' s
         | [] => match_here p' []
         end) s
  end.

Fixpoint regex_search (p : list atom) (s : text) : option text :=
  match match_here p s with
  | Some n => Some (firstn n s)
  | None => match s with
            | [] => None
            | _ :: s' => regex_search p s'
            end
  end.

(** [\[../.../....:..:..:.. .....\]] *)
Definition datetime_pattern : list cls :=
  [CLit "["; CAny; CAny; CLit "/"; CAny; CAny; CAny; CLit "/";
   CAny; CAny; CAny; CAny; CLit ":"; CAny; CAny; CLit ":";
   CAny; CAny; CLit ":"; CAny; CAny; CLit " ";
   CAny; CAny; CAny; CAny; CAny; CLit "]"]%char.

Definition datetime_regex : list atom := map One datetime_pattern.

(** [[a-z]*] *)
Definition suffix_regex : list atom := [Star (CRange "a"%char "z"%char)].

(** ** [extract_datetime] *)

Record datetime := mkDatetime {
  year : Z; month : Z; day : Z;
  hour : Z; minute : Z; second : Z;
  offset : Z
}.

(** The fields of [res] are only read once [valid] is set, i.e. once all
    seven have been assigned; the initial values are irrelevant. *)
Definition datetime0 : datetime := mkDatetime 0 0 0 0 0 0 0.

Definition set_day r v := mkDatetime (year r) (month r) v (hour r) (minute r) (second r) (offset r).
Definition set_month r v := mkDatetime (year r) v (day r) (hour r) (minute r) (second r) (offset r).
Definition set_year r v := mkDatetime v (month r) (day r) (hour r) (minute r) (second r) (offset r).
Definition set_hour r v := mkDatetime (year r) (month r) (day r) v (minute r) (second r) (offset r).
Definition set_minute r v := mkDatetime (year r) (month r) (day r) (hour r) v (second r) (offset r).
Definition set_second r v := mkDatetime (year r) (month r) (day r) (hour r) (minute r) v (offset r).
Definition set_offset r v := mkDatetime (year r) (month r) (day r) (hour r) (minute r) (second r) v.

(** The [for] loop over the tokens with its [switch (pos)]; the loop
    state is [(res, valid)]. *)
Fixpoint datetime_loop (toks : list text) (pos : nat) (res : datetime) (valid : bool)
    : throws (datetime * bool) :=
  match toks with
  | [] => inr (res, valid)
  | t :: ts =>
      match pos with
      | 0 => v <- decDecode t ;; datetime_loop ts 1 (set_day res v) valid
      | 1 => v <- monthDecode t ;; datetime_loop ts 2 (set_month res v) valid
      | 2 => v <- decDecode t ;; datetime_loop ts 3 (set_year res v) valid
      | 3 => v <- decDecode t ;; datetime_loop ts 4 (set_hour res v) valid
      | 4 => v <- decDecode t ;; datetime_loop ts 5 (set_minute res v) valid
      | 5 => v <- decDecode t ;; datetime_loop ts 6 (set_second res v) valid
      | 6 => v <- decDecode t ;; datetime_loop ts 7 (set_offset res v) true
      | _ => inl EInvalidFormat
      end
  end.

(** The separator string ["[/: ]"]: its five characters are dropped. *)
Definition datetime_separators : text := str "[/: ]".

Definition datetime_of_tokens (toks : list text) : throws datetime :=
  match datetime_loop toks 0 datetime0 false with
  | inl e => inl e
  | inr (res, true) => inr res
  | inr (_, false) => inl ENotFound
  end.

Definition extract_datetime (entry : text) : throws datetime :=
  match regex_search datetime_regex entry with
  | Some m => datetime_of_tokens (tokenize datetime_separators drop_empty_tokens m)
  | None => datetime_of_tokens []
  end.

(** ** The world: configuration, filesystem and diagnostic stream *)

Definition prefix : text := str "/home/httpd".

Record world := mkWorld {
  w_suffix : text;                  (* static string suffix *)
  w_dirs : list text;               (* existing directories *)
  w_files : list (text * text);     (* regular files and their contents *)
  w_cerr : list text                (* lines written to std::cerr *)
}.

(** The directory part of a path: everything before its last ['/']. *)
Definition dirname (p : text) : text :=
  rev (tl (drop_while (fun c => negb (ascii_eqb c "/"%char)) (rev p))).

Definition is_dir (w : world) (p : text) : bool := existsb (text_eqb p) (w_dirs w).

Fixpoint lookup_file (p : text) (fs : list (text * text)) : option text :=
  match fs with
  | [] => None
  | (q, d) :: fs' => if text_eqb p q then Some d else lookup_file p fs'
  end.

Fixpoint append_file (p : text) (data : text) (fs : list (text * text))
    : list (text * text) :=
  match fs with
  | [] => [(p, data)]
  | (q, d) :: fs' => if text_eqb p q then (q, d ++ data) :: fs'
                     else (q, d) :: append_file p data fs'
  end.

(** Whether a regular file exists at [p]. *)
Definition is_file (w : world) (p : text) : bool :=
  match lookup_file p (w_files w) with Some _ => true | None => false end.

(** [mkdir(path, mode)]: fails with [EEXIST] when something (a directory
    or a regular file) already exists at [path] and with [ENOENT] or
    [ENOTDIR] when its parent is not a directory; otherwise it creates
    the directory.  Its result is ignored by the program. *)
Definition sys_mkdir (path : text) (w : world) : world :=
  if is_dir w path || is_file w path then w
  else if is_dir w (dirname path) then
    mkWorld (w_suffix w) (path :: w_dirs w) (w_files w) (w_cerr w)
  else w.

(** [open(path, O_WRONLY | O_CREAT | O_APPEND | O_LARGEFILE, mode)]
    succeeds when the containing directory exists and [path] is not a
    directory. *)
Definition can_open (w : world) (path : text) : bool :=
  is_dir w (dirname path) && negb (is_dir w path).

(** [write_long] on a descriptor opened with [O_APPEND]. *)
Definition write_long (path : text) (buf : text) (w : world) : world :=
  mkWorld (w_suffix w) (w_dirs w) (append_file path buf (w_files w)) (w_cerr w).

(** ** [process_entry] *)

Definition log_dir_of (suffix : text) (domain_parts : list text) (log_time : datetime)
    : text :=
  let n := length domain_parts in
  prefix ++ str "/" ++ nth (n - 2) domain_parts [] ++
  str "." ++ nth (n - 1) domain_parts [] ++
  str "/logs/" ++ leadzero (decEncode (year log_time)) 4 ++
  str "-" ++ leadzero (decEncode (month log_time)) 2 ++ suffix.

(** What [process_entry] decides for a line: nothing, an exception, or
    the directory to create, the file to append to and the bytes to
    append. *)
Inductive action :=
| Skip
| Store (log_dir : text) (file : text) (access : text).

Definition route (suffix : text) (entry : text) : throws action :=
  let domain_start := find_until entry " "%char 0 in
  let domain_end := find_first entry " "%char domain_start in
  let log_start := find_until entry " "%char domain_end in
  if Nat.ltb log_start (length entry) && Nat.ltb domain_start domain_end then
    let domain := substr entry domain_start (domain_end - domain_start) in
    let domain_parts := split_domain domain in
    if Nat.leb 2 (length domain_parts) then
      let access := substr_from entry log_start in
      log_time <- extract_datetime access ;;
      let log_dir := log_dir_of suffix domain_parts log_time in
      inr (Store log_dir (log_dir ++ str "/" ++ domain) access)
    else inr Skip
  else inr Skip.

Definition newline : ascii := "010"%char.

Definition perform (a : action) (w : world) : world :=
  match a with
  | Skip => w
  | Store log_dir file access =>
      let w1 := sys_mkdir log_dir w in
      if can_open w1 file then
        write_long file [newline] (write_long file access w1)
      else w1
  end.

(** [process_entry] reads the global [suffix]; an exception leaves the
    world untouched since it is thrown before [mkdir]. *)
Definition process_entry (w : world) (entry : text) : throws world :=
  a <- route (w_suffix w) entry ;; inr (perform a w).

(** ** [main] *)

Definition suffix_of_args (argv : list text) (suffix : text) : text :=
  match argv with
  | _ :: arg :: _ =>
      match regex_search suffix_regex arg with
      | Some m => str "." ++ m
      | None => suffix
      end
  | _ => suffix
  end.

Definition report (e : error) (w : world) : world :=
  mkWorld (w_suffix w) (w_dirs w) (w_files w)
    (w_cerr w ++ [str "Exception while processing access log entry: " ++ what e]).

Fixpoint process_lines (w : world) (lines : list text) : world :=
  match lines with
  | [] => w
  | entry :: rest =>
      match process_entry w entry with
      | inl e => process_lines (report e w) rest
      | inr w' => process_lines w' rest
      end
  end.

(** [main] starts from the static initialiser [suffix = ""]; the
    filesystem and diagnostic stream of [w] are the process's environment. *)
Definition main (argv : list text) (lines : list text) (w : world) : world :=
  let w0 := mkWorld (suffix_of_args argv []) (w_dirs w) (w_files w) (w_cerr w) in
  process_lines w0 lines.

(** * Vocabulary of the properties *)

(** ** Fields of a log line

    A line is [k1] spaces, the domain field (no space in it), [k2]
    spaces, and the access-log text, which starts with a non-space. *)

Definition no_space (d : text) : bool := forallb (fun c => negb (ascii_eqb c " "%char)) d.

Definition starts_nonspace (t : text) : bool :=
  match t with [] => true | a :: _ => negb (ascii_eqb a " "%char) end.

Definition spaces (k : nat) : text := repeat " "%char k.

(** ** Paths *)

(** Zero padding on the left up to width [w]. *)
Definition zero_pad (w : nat) (s : text) : text := repeat "0"%char (w - length s) ++ s.

(** The year directory as the program writes it: the decimal year
    zero-padded to 4 characters, or the negative year as it is. *)
Definition yyyy (y : Z) : text :=
  if (y <? 0)%Z then decEncode y else zero_pad 4 (decEncode y).

Definition digit_head (t : text) : Prop :=
  match t with c :: _ => is_digit c = true | [] => False end.

(** ** Tokens *)

Definition count_dropped (dropped s : text) : nat := length (filter (is_dropped dropped) s).

Definition at_delimiter (dropped s : text) : Prop :=
  match s with [] => True | c :: _ => is_dropped dropped c = true end.

(** ** Pattern matching *)

(** A text accepted by a sequence of single-character classes. *)
Fixpoint cls_list_ok (ks : list cls) (s : text) : bool :=
  match ks, s with
  | [], _ => true
  | k :: ks', c :: s' => cls_ok k c && cls_list_ok ks' s'
  | _ :: _, [] => false
  end.

Definition char_is (m : text) (i : nat) (c : ascii) : bool :=
  match nth_error m i with Some x => ascii_eqb x c | None => false end.

(** The timestamp shape of the spec with separator [sep] between day,
    month and year: ["["] + 2 chars + [sep] + 3 chars + [sep] + 4 chars +
    [":"] + 2 chars + [":"] + 2 chars + [":"] + 2 chars + [" "] + 5 chars +
    ["]"], 28 characters. *)
Definition shape_at (sep : ascii) (m : text) : bool :=
  Nat.eqb (length m) 28 && char_is m 0 "["%char && char_is m 3 sep &&
  char_is m 7 sep && char_is m 12 ":"%char && char_is m 15 ":"%char &&
  char_is m 18 ":"%char && char_is m 21 " "%char && char_is m 27 "]"%char.

(** Some substring of [t], starting anywhere, has the shape. *)
Fixpoint contains_shape (sep : ascii) (t : text) : bool :=
  shape_at sep (firstn 28 t) ||
  match t with [] => false | _ :: t' => contains_shape sep t' end.

(** ** Timestamp tokens *)

(** The token at position [pos] decodes (position 1 is the month). *)
Definition decodes_at (pos : nat) (t : text) : bool :=
  match pos with
  | 1 => match monthDecode t with inr _ => true | inl _ => false end
  | _ => match decDecode t with inr _ => true | inl _ => false end
  end.

Fixpoint decodes_from (pos : nat) (toks : list text) : bool :=
  match toks with
  | [] => true
  | t :: ts => decodes_at pos t && decodes_from (S pos) ts
  end.

(** The first seven tokens (all of them when fewer) decode. *)
Definition decodes_ok (toks : list text) : bool := decodes_from 0 (firstn 7 toks).

(** A [ParseError]: a decimal or month decoding failure. *)
Definition parse_error (e : error) : Prop :=
  e = ENotInteger \/ exists m, e = EInvalidMonth m.

(** ** Destinations and effects *)

(** The destination directory in the spec's terms:
    [{prefix}/{secondToLastLabel}.{lastLabel}/logs/{YYYY}-{MM}{suffix}];
    it only depends on the labels, the year and the month. *)
Definition destination_dir (sfx : text) (labels : list text) (y m : Z) : text :=
  prefix ++ str "/" ++ nth (length labels - 2) labels [] ++ str "." ++
  nth (length labels - 1) labels [] ++ str "/logs/" ++ yyyy y ++ str "-" ++
  zero_pad 2 (decEncode m) ++ sfx.


(** A server where the per-domain [logs] directory of [example.com]
    exists. *)
Definition sample_world : world :=
  mkWorld [] [str "/home"; prefix; prefix ++ str "/example.com";
              prefix ++ str "/example.com/logs"] [] [].

(** ** Joining labels *)

(** The labels [ts] written back with [sep] between two of them. *)
Definition join (sep : ascii) (ts : list text) : text :=
  match ts with
  | [] => []
  | t :: ts' => t ++ flat_map (fun u => sep :: u) ts'
  end.

(** ** Runs of lines *)




(** * Properties *)

(** ** Text and list lemmas *)

Lemma ascii_eqb_refl (c : ascii) : ascii_eqb c c = true.
Proof. apply Ascii.eqb_refl. Qed.

Lemma ascii_eqb_eq (a b : ascii) : ascii_eqb a b = true <-> a = b.
Proof. apply Ascii.eqb_eq. Qed.

Lemma text_eqb_eq (s t : text) : text_eqb s t = true <-> s = t.
Proof.
  revert t; induction s as [|a s IH]; intros [|b t]; simpl; try (split; congruence).
  rewrite andb_true_iff, ascii_eqb_eq, IH; split.
  - intros [-> ->]; reflexivity.
  - intros H; injection H; auto.
Qed.

Lemma text_eqb_refl (s : text) : text_eqb s s = true.
Proof. apply text_eqb_eq; reflexivity. Qed.

Lemma skipn_prefix (l r : text) : skipn (length l) (l ++ r) = r.
Proof. induction l; simpl; auto. Qed.

Lemma firstn_prefix (l r : text) : firstn (length l) (l ++ r) = l.
Proof. induction l; simpl; f_equal; auto. Qed.

Lemma nth_error_hd_skipn (s : text) (pos : nat) :
  nth_error s pos = match skipn pos s with [] => None | x :: _ => Some x end.
Proof.
  revert s; induction pos as [|pos IH]; intros [|x s]; simpl; auto.
Qed.

Lemma skipn_S_tl (s : text) (pos : nat) : skipn (S pos) s = tl (skipn pos s).
Proof.
  revert s; induction pos as [|pos IH]; intros [|x s].
  - reflexivity.
  - reflexivity.
  - reflexivity.
  - change (skipn (S pos) s = tl (skipn pos s)); apply IH.
Qed.

Lemma take_while_app_all (p : ascii -> bool) (l r : text) :
  forallb p l = true -> take_while p (l ++ r) = l ++ take_while p r.
Proof.
  induction l as [|a l IH]; simpl; auto.
  intros H; apply andb_true_iff in H as [Ha Hl]; rewrite Ha, IH; auto.
Qed.

Lemma take_while_stop (p : ascii -> bool) (a : ascii) (r : text) :
  p a = false -> take_while p (a :: r) = [].
Proof. simpl; intros ->; reflexivity. Qed.

(** ** [find_until] and [find_first] *)

Section FindLoops.
Variable until : ascii.

Lemma find_until_loop_spec (s : text) (fuel pos : nat) :
    pos <= length s -> length s <= pos + fuel ->
    find_until_loop s until pos fuel =
    pos + length (take_while (fun c => ascii_eqb c until) (skipn pos s)).
  Proof.
    revert pos; induction fuel as [|f IH]; intros pos Hp Hf; simpl.
    - replace pos with (length s) by lia. rewrite skipn_all; simpl; lia.
    - rewrite nth_error_hd_skipn.
      destruct (skipn pos s) as [|x r] eqn:E.
      + simpl. apply (f_equal (@length ascii)) in E.
        rewrite length_skipn in E; simpl in E; lia.
      + simpl. destruct (ascii_eqb x until) eqn:Ex; simpl.
        * assert (Hr : skipn (S pos) s = r) by (rewrite skipn_S_tl, E; reflexivity).
          assert (Hl : length (skipn pos s) = length s - pos) by apply length_skipn.
          rewrite E in Hl; simpl in Hl.
          rewrite IH by lia. rewrite Hr; lia.
        * lia.
  Qed.

Lemma find_first_loop_spec (s : text) (fuel pos : nat) :
    pos <= length s -> length s <= pos + fuel ->
    find_first_loop s until pos fuel =
    pos + length (take_while (fun c => negb (ascii_eqb c until)) (skipn pos s)).
  Proof.
    revert pos; induction fuel as [|f IH]; intros pos Hp Hf; simpl.
    - replace pos with (length s) by lia. rewrite skipn_all; simpl; lia.
    - rewrite nth_error_hd_skipn.
      destruct (skipn pos s) as [|x r] eqn:E.
      + simpl. apply (f_equal (@length ascii)) in E.
        rewrite length_skipn in E; simpl in E; lia.
      + simpl. destruct (ascii_eqb x until) eqn:Ex; simpl.
        * lia.
        * assert (Hr : skipn (S pos) s = r) by (rewrite skipn_S_tl, E; reflexivity).
          assert (Hl : length (skipn pos s) = length s - pos) by apply length_skipn.
          rewrite E in Hl; simpl in Hl.
          rewrite IH by lia. rewrite Hr; lia.
  Qed.

Lemma find_until_spec (s : text) (pos : nat) :
    pos <= length s ->
    find_until s until pos =
    pos + length (take_while (fun c => ascii_eqb c until) (skipn pos s)).
  Proof. intros; apply find_until_loop_spec; lia. Qed.

Lemma find_first_spec (s : text) (pos : nat) :
    pos <= length s ->
    find_first s until pos =
    pos + length (take_while (fun c => negb (ascii_eqb c until)) (skipn pos s)).
  Proof. intros; apply find_first_loop_spec; lia. Qed.
End FindLoops.

(** ** The fields of a log line as [process_entry] finds them

    A line is [k1] spaces, the domain field (no space in it), [k2]
    spaces, and the access-log text, which starts with a non-space. *)

Lemma forallb_spaces (k : nat) : forallb (fun c => ascii_eqb c " "%char) (spaces k) = true.
Proof. induction k; simpl; auto. Qed.

Lemma length_spaces (k : nat) : length (spaces k) = k.
Proof. apply repeat_length. Qed.

Lemma take_while_nonspace (dom rest : text) :
  no_space dom = true ->
  take_while (fun c => negb (ascii_eqb c " "%char)) (dom ++ rest) =
  dom ++ take_while (fun c => negb (ascii_eqb c " "%char)) rest.
Proof. apply take_while_app_all. Qed.

Lemma take_while_spaces (k : nat) (rest : text) :
  take_while (fun c => ascii_eqb c " "%char) (spaces k ++ rest) =
  spaces k ++ take_while (fun c => ascii_eqb c " "%char) rest.
Proof. apply take_while_app_all, forallb_spaces. Qed.

Lemma take_while_starts_nonspace (t : text) :
  starts_nonspace t = true -> take_while (fun c => ascii_eqb c " "%char) t = [].
Proof. destruct t as [|a t]; simpl; auto. destruct (ascii_eqb a " "%char); simpl; auto; discriminate. Qed.

Lemma route_fields (sfx : text) (k1 : nat) (dom : text) (k2 : nat) (acc : text) :
  dom <> [] -> no_space dom = true -> (1 <= k2 \/ acc = []) ->
  starts_nonspace acc = true ->
  route sfx (spaces k1 ++ dom ++ spaces k2 ++ acc) =
  match acc with
  | [] => inr Skip
  | _ =>
      if Nat.leb 2 (length (split_domain dom)) then
        t <- extract_datetime acc ;;
        inr (Store (log_dir_of sfx (split_domain dom) t)
                   (log_dir_of sfx (split_domain dom) t ++ str "/" ++ dom) acc)
      else inr Skip
  end.
Proof.
  intros Hne Hns Hk2 Hacc.
  set (e := spaces k1 ++ dom ++ spaces k2 ++ acc).
  assert (Hlen : length e = k1 + length dom + k2 + length acc).
  { subst e; rewrite !length_app, !length_spaces; lia. }
  assert (Hds : find_until e " "%char 0 = k1).
  { rewrite find_until_spec by lia. simpl skipn. subst e.
    rewrite take_while_spaces.
    destruct dom as [|d dom']; [congruence|].
    simpl in Hns; apply andb_true_iff in Hns as [Hd _].
    simpl app at 2; rewrite take_while_stop by (destruct (ascii_eqb d " "%char); auto).
    rewrite app_nil_r, length_spaces; reflexivity. }
  assert (Hs1 : skipn k1 e = dom ++ spaces k2 ++ acc).
  { subst e. rewrite <- (length_spaces k1) at 1. apply skipn_prefix. }
  assert (Hde : find_first e " "%char k1 = k1 + length dom).
  { rewrite find_first_spec by lia. rewrite Hs1, take_while_nonspace by exact Hns.
    destruct Hk2 as [Hk2| ->].
    - destruct k2 as [|k2']; [lia|]. simpl.
      try rewrite ascii_eqb_refl; simpl. rewrite app_nil_r; reflexivity.
    - rewrite app_nil_r.
      assert (Hsp : forall k, take_while (fun c => negb (ascii_eqb c " "%char)) (spaces k) = []).
      { intros [|k]; simpl; [reflexivity|]. try rewrite ascii_eqb_refl; reflexivity. }
      rewrite Hsp, app_nil_r; reflexivity. }
  assert (Hs2 : skipn (k1 + length dom) e = spaces k2 ++ acc).
  { replace (k1 + length dom) with (length dom + k1) by lia.
    rewrite <- skipn_skipn, Hs1. apply skipn_prefix. }
  assert (Hls : find_until e " "%char (k1 + length dom) = k1 + length dom + k2).
  { rewrite find_until_spec by lia. rewrite Hs2, take_while_spaces.
    rewrite take_while_starts_nonspace by exact Hacc.
    rewrite app_nil_r, length_spaces; reflexivity. }
  assert (Hdom : substr e k1 (k1 + length dom - k1) = dom).
  { unfold substr. rewrite Hs1. replace (k1 + length dom - k1) with (length dom) by lia.
    apply firstn_prefix. }
  assert (Hacc' : substr_from e (k1 + length dom + k2) = acc).
  { unfold substr_from. replace (k1 + length dom + k2) with (k2 + (k1 + length dom)) by lia.
    rewrite <- skipn_skipn, Hs2.
    rewrite <- (length_spaces k2) at 1. apply skipn_prefix. }
  unfold route. rewrite Hds, Hde, Hls, Hdom, Hacc'.
  destruct dom as [|d dom']; [congruence|].
  assert (Hlt : Nat.ltb k1 (k1 + length (d :: dom')) = true).
  { apply Nat.ltb_lt; simpl; lia. }
  rewrite Hlt, andb_true_r.
  destruct acc as [|a acc'].
  - replace (Nat.ltb (k1 + length (d :: dom') + k2) (length e)) with false
      by (symmetry; apply Nat.ltb_ge; rewrite Hlen; simpl; lia).
    reflexivity.
  - replace (Nat.ltb (k1 + length (d :: dom') + k2) (length e)) with true
      by (symmetry; apply Nat.ltb_lt; rewrite Hlen; simpl; lia).
    reflexivity.
Qed.

(** A line made of spaces only has an empty domain field. *)
Lemma route_blank (sfx : text) (k : nat) : route sfx (spaces k) = inr Skip.
Proof.
  unfold route.
  assert (H : find_until (spaces k) " "%char 0 = k).
  { rewrite find_until_spec by lia. simpl skipn.
    rewrite <- (app_nil_r (spaces k)), take_while_spaces; simpl.
    rewrite !app_nil_r, length_spaces; reflexivity. }
  rewrite H. rewrite find_first_spec by (rewrite length_spaces; lia).
  rewrite skipn_all2 by (rewrite length_spaces; lia). simpl.
  rewrite Nat.add_0_r, find_until_spec by (rewrite length_spaces; lia).
  rewrite skipn_all2 by (rewrite length_spaces; lia). simpl.
  rewrite Nat.add_0_r, length_spaces, Nat.ltb_irrefl; reflexivity.
Qed.

(** ** Files *)



(** ** [leadzero] and [decEncode] *)

Lemma repeat_snoc_app (x : ascii) (k : nat) (r : text) :
  repeat x k ++ x :: r = x :: (repeat x k ++ r).
Proof. induction k; simpl; f_equal; auto. Qed.

Lemma leadzero_loop_pad (fuel num : nat) (ret : text) :
  num - length ret <= fuel -> leadzero_loop fuel num ret = zero_pad num ret.
Proof.
  unfold zero_pad. revert ret; induction fuel as [|f IH]; intros ret Hf; simpl.
  - replace (num - length ret) with 0 by lia; reflexivity.
  - destruct (Nat.ltb (length ret) num) eqn:E.
    + apply Nat.ltb_lt in E. rewrite IH by (simpl; lia). simpl length.
      replace (num - length ret) with (S (num - S (length ret))) by lia.
      simpl. rewrite repeat_snoc_app; reflexivity.
    + apply Nat.ltb_ge in E. replace (num - length ret) with 0 by lia; reflexivity.
Qed.

Lemma leadzero_digit (c : ascii) (r : text) (num : nat) :
  is_digit c = true -> leadzero (c :: r) num = zero_pad num (c :: r).
Proof. intros H; unfold leadzero; rewrite H; simpl; apply leadzero_loop_pad; lia. Qed.

Lemma digit_char_is_digit (n : Z) : is_digit (digit_char (n mod 10)) = true.
Proof.
  unfold is_digit, digit_char.
  pose proof (Z.mod_pos_bound n 10 ltac:(lia)) as [H0 H1].
  rewrite Ascii.nat_ascii_embedding by lia.
  apply andb_true_iff; split; apply Nat.leb_le; lia.
Qed.

Lemma digits_rev_head (fuel : nat) (n : Z) (acc : text) :
  digit_head acc -> digit_head (digits_rev fuel n acc).
Proof.
  revert n acc; induction fuel as [|f IH]; intros n acc H; simpl; auto.
  destruct (n <? 10)%Z.
  - exact (digit_char_is_digit n).
  - apply IH; exact (digit_char_is_digit n).
Qed.

Lemma digits_rev_S_head (f : nat) (n : Z) (acc : text) :
  digit_head (digits_rev (S f) n acc).
Proof.
  cbn [digits_rev]. destruct (n <? 10)%Z.
  - exact (digit_char_is_digit n).
  - apply digits_rev_head; exact (digit_char_is_digit n).
Qed.

Lemma decEncode_nonneg_head (v : Z) :
  (0 <= v)%Z -> digit_head (decEncode v).
Proof.
  intros H. unfold decEncode.
  replace (v <? 0)%Z with false by (symmetry; apply Z.ltb_ge; lia).
  apply digits_rev_S_head.
Qed.

Lemma leadzero_decEncode_nonneg (v : Z) (num : nat) :
  (0 <= v)%Z -> leadzero (decEncode v) num = zero_pad num (decEncode v).
Proof.
  intros H. pose proof (decEncode_nonneg_head v H) as Hd.
  destruct (decEncode v) as [|c r]; [contradiction|]. apply leadzero_digit; exact Hd.
Qed.

Lemma leadzero_decEncode_neg (v : Z) (num : nat) :
  (v < 0)%Z -> leadzero (decEncode v) num = decEncode v.
Proof.
  intros H. unfold decEncode.
  replace (v <? 0)%Z with true by (symmetry; apply Z.ltb_lt; lia).
  reflexivity.
Qed.

Lemma leadzero_year (y : Z) : leadzero (decEncode y) 4 = yyyy y.
Proof.
  unfold yyyy. destruct (y <? 0)%Z eqn:E.
  - apply leadzero_decEncode_neg; apply Z.ltb_lt; exact E.
  - apply leadzero_decEncode_nonneg; apply Z.ltb_ge; exact E.
Qed.

(** ** The tokenizer with [keep_empty_tokens] *)

Lemma take_token_spec (dropped s : text) :
  let '(t, r) := take_token dropped s in
  s = t ++ r /\ count_dropped dropped t = 0 /\ at_delimiter dropped r.
Proof.
  induction s as [|c s IH]; simpl.
  - repeat split.
  - destruct (is_dropped dropped c) eqn:E.
    + simpl; repeat split. exact E.
    + destruct (take_token dropped s) as [t r].
      destruct IH as [-> [Ht Hr]]. repeat split; auto.
      unfold count_dropped in *; simpl; rewrite E; exact Ht.
Qed.

Lemma count_dropped_app (dropped l r : text) :
  count_dropped dropped (l ++ r) = count_dropped dropped l + count_dropped dropped r.
Proof. unfold count_dropped; rewrite filter_app, length_app; reflexivity. Qed.

(** After the first token, each token of the [keep_empty_tokens]
    separator starts at a delimiter: one token per delimiter. *)
Lemma tokens_keep_done (dropped : text) (fuel : nat) (r : text) :
  length r < fuel -> at_delimiter dropped r ->
  length (tokens_loop dropped keep_empty_tokens fuel r true) = count_dropped dropped r.
Proof.
  revert r; induction fuel as [|f IH]; intros r Hf Hr; [lia|].
  destruct r as [|c r']; simpl; [reflexivity|].
  simpl in Hr. rewrite Hr.
  pose proof (take_token_spec dropped r') as Ht.
  destruct (take_token dropped r') as [t r''].
  destruct Ht as [Heq [Hct Hat]].
  simpl. rewrite IH.
  - unfold count_dropped at 2; simpl; rewrite Hr; simpl.
    fold (count_dropped dropped r'). rewrite Heq, count_dropped_app, Hct; reflexivity.
  - rewrite Heq in Hf; simpl in Hf; rewrite length_app in Hf; lia.
  - exact Hat.
Qed.

Lemma sep_next_keep_first (dropped : text) (c : ascii) (r : text) :
  sep_next dropped keep_empty_tokens (c :: r) false =
  if is_dropped dropped c then Some ([], c :: r, true)
  else let '(t, r') := take_token dropped (c :: r) in Some (t, r', true).
Proof. unfold sep_next; destruct (is_dropped dropped c); reflexivity. Qed.

Lemma tokenize_keep_length (dropped s : text) :
  s <> [] -> length (tokenize dropped keep_empty_tokens s) = S (count_dropped dropped s).
Proof.
  intros Hs. destruct s as [|c s0]; [congruence|].
  unfold tokenize. cbn [tokens_loop length Nat.add].
  rewrite sep_next_keep_first.
  destruct (is_dropped dropped c) eqn:E.
  - cbn [length]. f_equal. apply tokens_keep_done; simpl; [lia|exact E].
  - pose proof (take_token_spec dropped (c :: s0)) as Ht.
    destruct (take_token dropped (c :: s0)) as [t r] eqn:Etk.
    destruct Ht as [Heq [Hct Hat]].
    cbn [length]. f_equal. rewrite tokens_keep_done.
    + rewrite Heq, count_dropped_app, Hct; reflexivity.
    + assert (Hl : length (c :: s0) = length t + length r) by (rewrite Heq; apply length_app).
      simpl in Hl; lia.
    + exact Hat.
Qed.

Lemma count_dropped_In (dropped s : text) (c : ascii) :
  In c s -> is_dropped dropped c = true -> 1 <= count_dropped dropped s.
Proof.
  intros Hin Hc. unfold count_dropped.
  destruct (filter (is_dropped dropped) s) eqn:E; simpl; [|lia].
  assert (In c (filter (is_dropped dropped) s)) by (apply filter_In; auto).
  rewrite E in H; contradiction.
Qed.

(** ** [regex_search] *)

Lemma cls_lower (c : ascii) : cls_ok (CRange "a" "z") c = is_lower c.
Proof. reflexivity. Qed.

Lemma match_here_lower_star (s : text) :
  match_here suffix_regex s = Some (length (take_while is_lower s)).
Proof.
  induction s as [|c s IH]; [reflexivity|].
  change (match_here suffix_regex (c :: s)) with
    (if cls_ok (CRange "a" "z") c then
       match match_here suffix_regex s with Some n => Some (S n) | None => Some 0 end
     else Some 0).
  rewrite cls_lower, IH. simpl. destruct (is_lower c); reflexivity.
Qed.

Lemma firstn_take_while (p : ascii -> bool) (s : text) :
  firstn (length (take_while p s)) s = take_while p s.
Proof.
  induction s as [|c s IH]; simpl; auto.
  destruct (p c); simpl; f_equal; auto.
Qed.

Lemma regex_search_lower_star (s : text) :
  regex_search suffix_regex s = Some (take_while is_lower s).
Proof.
  destruct s as [|c s]; [reflexivity|].
  unfold regex_search; rewrite match_here_lower_star, firstn_take_while; reflexivity.
Qed.

Lemma match_here_ones (ks : list cls) (s : text) (n : nat) :
  match_here (map One ks) s = Some n -> cls_list_ok ks s = true /\ n = length ks.
Proof.
  revert s n; induction ks as [|k ks IH]; intros s n H; simpl in *.
  - injection H; auto.
  - destruct s as [|c s]; [discriminate|].
    destruct (cls_ok k c); [|discriminate].
    destruct (match_here (map One ks) s) as [m|] eqn:E; [|discriminate].
    simpl in H; injection H as <-. destruct (IH s m E) as [-> ->]; auto.
Qed.

Lemma cls_list_ok_nth (ks : list cls) (s : text) (i : nat) (k : cls) :
  cls_list_ok ks s = true -> nth_error ks i = Some k ->
  exists c, nth_error s i = Some c /\ cls_ok k c = true.
Proof.
  revert s i; induction ks as [|k' ks IH]; intros s i H Hi.
  - destruct i; discriminate.
  - destruct s as [|c s]; [discriminate|].
    simpl in H; apply andb_true_iff in H as [Hc H].
    destruct i as [|i]; simpl in Hi.
    + injection Hi as <-. exists c; auto.
    + exact (IH s i H Hi).
Qed.

Lemma cls_list_ok_length (ks : list cls) (s : text) :
  cls_list_ok ks s = true -> length ks <= length s.
Proof.
  revert s; induction ks as [|k ks IH]; intros s H; simpl; [lia|].
  destruct s as [|c s]; [discriminate|].
  simpl in H; apply andb_true_iff in H as [_ H]. simpl; apply IH in H; lia.
Qed.

Lemma char_is_lit (ks : list cls) (s : text) (i n : nat) (d : ascii) :
  cls_list_ok ks s = true -> nth_error ks i = Some (CLit d) -> i < n ->
  char_is (firstn n s) i d = true.
Proof.
  intros H Hi Hn. destruct (cls_list_ok_nth ks s i _ H Hi) as [c [Hc Hok]].
  unfold char_is. rewrite nth_error_firstn.
  replace (Nat.ltb i n) with true by (symmetry; apply Nat.ltb_lt; exact Hn).
  rewrite Hc. exact Hok.
Qed.

Lemma datetime_pattern_shape (s : text) :
  cls_list_ok datetime_pattern s = true -> shape_at "/"%char (firstn 28 s) = true.
Proof.
  intros H.
  assert (Hl : length (firstn 28 s) = 28).
  { apply firstn_length_le. apply cls_list_ok_length in H. exact H. }
  unfold shape_at. rewrite Hl.
  repeat (rewrite (char_is_lit datetime_pattern s _ 28 _ H); [|reflexivity|lia]).
  reflexivity.
Qed.

Lemma match_here_datetime_none (s : text) :
  length s < 28 -> match_here datetime_regex s = None.
Proof.
  intros Hs. destruct (match_here datetime_regex s) as [n|] eqn:E; auto.
  apply match_here_ones in E as [E _]. apply cls_list_ok_length in E.
  simpl in E; lia.
Qed.

Lemma regex_search_cons (p : list atom) (c : ascii) (t : text) :
  regex_search p (c :: t) =
  match match_here p (c :: t) with
  | Some n => Some (firstn n (c :: t))
  | None => regex_search p t
  end.
Proof. reflexivity. Qed.

Lemma contains_shape_cons (sep c : ascii) (t : text) :
  contains_shape sep (c :: t) = shape_at sep (firstn 28 (c :: t)) || contains_shape sep t.
Proof. reflexivity. Qed.

(** Every match of the timestamp regex has the slash-separated shape. *)
Lemma regex_search_datetime_shape (t m : text) :
  regex_search datetime_regex t = Some m -> contains_shape "/"%char t = true.
Proof.
  induction t as [|c t IH]; intros H.
  - simpl in H. discriminate H.
  - rewrite regex_search_cons in H.
    destruct (match_here datetime_regex (c :: t)) as [n|] eqn:E.
    + apply match_here_ones in E as [E _].
      rewrite contains_shape_cons, (datetime_pattern_shape _ E). reflexivity.
    + rewrite contains_shape_cons, (IH H), orb_true_r. reflexivity.
Qed.

(** ** The timestamp loop *)

Lemma decDecode_error (t : text) (e : error) : decDecode t = inl e -> e = ENotInteger.
Proof.
  unfold decDecode. destruct (strtol (c_str t)) as [v [|x r]]; intros H; congruence.
Qed.

Lemma monthDecode_error (t : text) (e : error) :
  monthDecode t = inl e -> exists m, e = EInvalidMonth m.
Proof.
  unfold monthDecode. generalize 1%Z. induction month_names as [|n ns IH]; intros k H; simpl in H.
  - injection H as <-. eauto.
  - destruct (text_eqb t (str n)); [discriminate|]. exact (IH _ H).
Qed.

Ltac decode_cases :=
  repeat (match goal with
          | |- context [decDecode ?t] => let E := fresh "E" in destruct (decDecode t) eqn:E
          | |- context [monthDecode ?t] => let E := fresh "E" in destruct (monthDecode t) eqn:E
          end; simpl).

Ltac token_cases :=
  intros toks;
  destruct toks as [|t0 [|t1 [|t2 [|t3 [|t4 [|t5 [|t6 [|t7 rest]]]]]]]];
  unfold decodes_ok, datetime_of_tokens; simpl; decode_cases; intros;
  try discriminate; try lia.

Lemma tokens_fewer :
  forall toks, decodes_ok toks = true -> length toks < 7 ->
  datetime_of_tokens toks = inl ENotFound.
Proof. token_cases; reflexivity. Qed.

Lemma tokens_seven :
  forall toks, decodes_ok toks = true -> length toks = 7 ->
  exists dt, datetime_of_tokens toks = inr dt.
Proof. token_cases; eexists; reflexivity. Qed.

Lemma tokens_more :
  forall toks, decodes_ok toks = true -> 7 < length toks ->
  datetime_of_tokens toks = inl EInvalidFormat.
Proof. token_cases; reflexivity. Qed.

Lemma tokens_undecodable :
  forall toks, decodes_ok toks = false ->
  exists e, datetime_of_tokens toks = inl e /\ parse_error e.
Proof.
  token_cases;
  (eexists; split; [reflexivity|]);
  first [ left; eapply decDecode_error; eassumption
        | right; eapply monthDecode_error; eassumption ].
Qed.

Lemma monthDecode_range (t : text) (m : Z) : monthDecode t = inr m -> (1 <= m <= 12)%Z.
Proof.
  unfold monthDecode.
  assert (H : forall names k, month_index t names k = inr m ->
                (k <= m < k + Z.of_nat (length names))%Z).
  { induction names as [|n ns IH]; intros k H; simpl in H; [discriminate|].
    destruct (text_eqb t (str n)).
    - injection H as <-. simpl length. lia.
    - apply IH in H. simpl length. lia. }
  intros Hm; apply H in Hm; simpl in Hm; lia.
Qed.

Lemma tokens_month (toks : list text) (dt : datetime) :
  datetime_of_tokens toks = inr dt -> (1 <= month dt <= 12)%Z.
Proof.
  revert dt.
  destruct toks as [|t0 [|t1 [|t2 [|t3 [|t4 [|t5 [|t6 [|t7 rest]]]]]]]];
  unfold datetime_of_tokens; simpl; decode_cases; intros dt H; try discriminate.
  injection H as <-. simpl. eapply monthDecode_range; eassumption.
Qed.

Lemma extract_datetime_month (t : text) (dt : datetime) :
  extract_datetime t = inr dt -> (1 <= month dt <= 12)%Z.
Proof.
  unfold extract_datetime. destruct (regex_search datetime_regex t); apply tokens_month.
Qed.

Lemma log_dir_destination (sfx : text) (labels : list text) (dt : datetime) :
  (0 <= month dt)%Z ->
  log_dir_of sfx labels dt = destination_dir sfx labels (year dt) (month dt).
Proof.
  intros Hm. unfold log_dir_of, destination_dir.
  rewrite leadzero_year, leadzero_decEncode_nonneg by exact Hm. reflexivity.
Qed.


Lemma sys_mkdir_existing_file (d : text) (w : world) :
  is_file w d = true -> sys_mkdir d w = w.
Proof. intros H. unfold sys_mkdir. rewrite H, orb_true_r. reflexivity. Qed.

Lemma spaces_app (a b : nat) : spaces a ++ spaces b = spaces (a + b).
Proof. unfold spaces; rewrite repeat_app; reflexivity. Qed.

Lemma process_lines_suffix (w : world) (lines : list text) :
  w_suffix (process_lines w lines) = w_suffix w.
Proof.
  revert w; induction lines as [|e lines IH]; intros w; simpl; auto.
  unfold process_entry.
  destruct (route (w_suffix w) e) as [err|a]; simpl.
  - rewrite IH; reflexivity.
  - rewrite IH. destruct a as [|d f acc]; simpl; auto.
    unfold sys_mkdir. destruct (is_dir w d || is_file w d), (is_dir w (dirname d)); simpl;
    match goal with |- context [can_open ?x ?y] => destruct (can_open x y) end; reflexivity.
Qed.

(** * The claims *)

(** ** C1: what a routed line appends *)




(** ** C2: the timestamp shape *)

(** C2 (counterexample): the program's shape separates day, month and
    year with ['/'], not ['-']: a text with the slash form and no dash
    form is decoded, and the dash form of the spec is not found. *)
Lemma C2_slash_shape_not_dash :
  contains_shape "-"%char (str "[10/Mar/2020:14:22:01 +0000]") = false /\
  extract_datetime (str "[10/Mar/2020:14:22:01 +0000]") = inr (mkDatetime 2020 3 10 14 22 1 0) /\
  contains_shape "-"%char (str "[10-Mar-2020:14:22:01 +0000]") = true /\
  extract_datetime (str "[10-Mar-2020:14:22:01 +0000]") = inl ENotFound.
Proof. vm_compute; repeat split. Qed.

(** C2 (amended): a text without a substring of the slash-separated
    shape [\[DD/Mon/YYYY:HH:MM:SS +off\]] (starting anywhere) makes
    [extract_datetime] fail with the "not found" error; a line with a
    routable domain field (at least two labels) whose access-log text
    has no such substring raises that error from [process_entry], and
    nothing is written. *)
Theorem extract_datetime_needs_slash_shape (t : text) :
  contains_shape "/"%char t = false ->
  extract_datetime t = inl ENotFound /\
  (forall w k1 dom k2,
     dom <> [] -> no_space dom = true -> 1 <= k2 ->
     t <> [] -> starts_nonspace t = true -> 2 <= length (split_domain dom) ->
     process_entry w (spaces k1 ++ dom ++ spaces k2 ++ t) = inl ENotFound).
Proof.
  intros Hshape.
  assert (Hnone : regex_search datetime_regex t = None).
  { destruct (regex_search datetime_regex t) as [m|] eqn:E; auto.
    apply regex_search_datetime_shape in E; congruence. }
  assert (Hext : extract_datetime t = inl ENotFound).
  { unfold extract_datetime; rewrite Hnone; reflexivity. }
  split; [exact Hext|].
  intros w k1 dom k2 Hne Hns Hk2 Htne Hst Hlab.
  unfold process_entry. rewrite route_fields by auto.
  destruct t as [|a t']; [congruence|].
  replace (Nat.leb 2 (length (split_domain dom))) with true
    by (symmetry; apply Nat.leb_le; exact Hlab).
  rewrite Hext. reflexivity.
Qed.

Lemma extract_datetime_needs_slash_shape_witness :
  contains_shape "/"%char (str "[10-Mar-2020:14:22:01 +0000] GET /") = false /\
  extract_datetime (str "[10-Mar-2020:14:22:01 +0000] GET /") = inl ENotFound.
Proof.
  split; [vm_compute; reflexivity|].
  apply (extract_datetime_needs_slash_shape (str "[10-Mar-2020:14:22:01 +0000] GET /")).
  vm_compute; reflexivity.
Defined.

(** ** C3: the destination path *)

(** C3 (counterexample): a negative year (the field [-001]) is not
    zero-padded to four digits: [leadzero] leaves a string that does not
    start with a digit as it is, and the directory is [.../logs/-1-03]. *)
Lemma C3_negative_year_unpadded :
  route [] (str "a.b [10/Mar/-001:14:22:01 +0000] x") =
  inr (Store (str "/home/httpd/a.b/logs/-1-03") (str "/home/httpd/a.b/logs/-1-03/a.b")
             (str "[10/Mar/-001:14:22:01 +0000] x")).
Proof. vm_compute; reflexivity. Qed.

(** C3 (amended): for a routed line, the directory is
    [{prefix}/{secondToLastLabel}.{lastLabel}/logs/{YYYY}-{MM}{suffix}]
    and the file is that directory followed by ["/"] and the whole domain
    field, where [MM] is the month (1 to 12) zero-padded to two digits
    and [YYYY] is the year zero-padded to four characters when it is
    non-negative, and the year's decimal form with its minus sign,
    unpadded, when it is negative.  [destination_dir] only takes the
    labels, the year and the month, so day and time play no part. *)
Theorem route_destination_path (sfx : text) (k1 : nat) (dom : text) (k2 : nat)
    (acc : text) (dt : datetime) :
  dom <> [] -> no_space dom = true -> 1 <= k2 ->
  acc <> [] -> starts_nonspace acc = true ->
  2 <= length (split_domain dom) ->
  extract_datetime acc = inr dt ->
  route sfx (spaces k1 ++ dom ++ spaces k2 ++ acc) =
    inr (Store (destination_dir sfx (split_domain dom) (year dt) (month dt))
               (destination_dir sfx (split_domain dom) (year dt) (month dt) ++ str "/" ++ dom)
               acc) /\
  (1 <= month dt <= 12)%Z.
Proof.
  intros Hne Hns Hk2 Hacc Hst Hlab Hdt.
  pose proof (extract_datetime_month _ _ Hdt) as Hm.
  split; [|exact Hm].
  rewrite route_fields by auto.
  destruct acc as [|a acc']; [congruence|].
  replace (Nat.leb 2 (length (split_domain dom))) with true
    by (symmetry; apply Nat.leb_le; exact Hlab).
  rewrite Hdt. cbn [bind].
  rewrite log_dir_destination by lia. reflexivity.
Qed.

Lemma route_destination_path_witness :
  route [] (spaces 0 ++ str "sub.example.com" ++ spaces 1 ++
            str "[10/Mar/2020:14:22:01 +0000] GET /index.html 200") =
    inr (Store (destination_dir [] (split_domain (str "sub.example.com")) 2020 3)
               (destination_dir [] (split_domain (str "sub.example.com")) 2020 3 ++
                str "/" ++ str "sub.example.com")
               (str "[10/Mar/2020:14:22:01 +0000] GET /index.html 200")) /\
  (1 <= 3 <= 12)%Z.
Proof.
  apply (route_destination_path [] 0 (str "sub.example.com") 1
           (str "[10/Mar/2020:14:22:01 +0000] GET /index.html 200")
           (mkDatetime 2020 3 10 14 22 1 0));
  [discriminate | reflexivity | lia | discriminate | reflexivity | simpl; lia
  | vm_compute; reflexivity].
Defined.

(** ** C4: the tokens of the timestamp *)

(** C4 (counterexample): seven tokens do not make the extraction
    succeed; a token that does not decode raises the decoding error. *)
Lemma C4_seven_tokens_undecodable :
  regex_search datetime_regex (str "[aa/Mar/2020:14:22:01 +0000]") =
    Some (str "[aa/Mar/2020:14:22:01 +0000]") /\
  length (tokenize datetime_separators drop_empty_tokens (str "[aa/Mar/2020:14:22:01 +0000]")) = 7 /\
  extract_datetime (str "[aa/Mar/2020:14:22:01 +0000]") = inl ENotInteger.
Proof. vm_compute; repeat split. Qed.

(** C4 (amended): when the shape is found in [t] (match [m]), [m] is
    split on the five characters ['['], ['/'], [':'], [' '] and [']'],
    empty parts dropped.  The tokens are decoded in order (position 1 as
    a month abbreviation, the others as decimals) and a failed decoding
    raises its parse error; when the first seven tokens (all of them if
    fewer) decode, fewer than seven tokens raise the "not found or not
    complete" error, more than seven the distinct "invalid format" error,
    and exactly seven give a date and time.  So the extraction succeeds
    if and only if there are exactly seven tokens and all of them decode. *)
Theorem extract_datetime_token_cases (t m : text) :
  regex_search datetime_regex t = Some m ->
  let toks := tokenize datetime_separators drop_empty_tokens m in
  (decodes_ok toks = true -> length toks < 7 -> extract_datetime t = inl ENotFound) /\
  (decodes_ok toks = true -> length toks = 7 -> exists dt, extract_datetime t = inr dt) /\
  (decodes_ok toks = true -> 7 < length toks -> extract_datetime t = inl EInvalidFormat) /\
  (decodes_ok toks = false -> exists e, extract_datetime t = inl e /\ parse_error e) /\
  ((exists dt, extract_datetime t = inr dt) <-> length toks = 7 /\ decodes_ok toks = true).
Proof.
  intros Hm toks.
  assert (Hx : extract_datetime t = datetime_of_tokens toks).
  { unfold extract_datetime; rewrite Hm; reflexivity. }
  rewrite Hx.
  split; [apply tokens_fewer|].
  split; [apply tokens_seven|].
  split; [apply tokens_more|].
  split; [apply tokens_undecodable|].
  split.
  - intros [dt Hdt].
    destruct (decodes_ok toks) eqn:Hd.
    + split; [|reflexivity].
      destruct (Nat.lt_trichotomy (length toks) 7) as [Hl|[Hl|Hl]]; auto.
      * rewrite (tokens_fewer _ Hd Hl) in Hdt; discriminate.
      * rewrite (tokens_more _ Hd Hl) in Hdt; discriminate.
    + destruct (tokens_undecodable _ Hd) as [e [He _]]. congruence.
  - intros [Hl Hd]. exact (tokens_seven _ Hd Hl).
Qed.

Lemma extract_datetime_token_cases_witness :
  exists dt, extract_datetime (str "[10/Mar/2020:14:22:01 +0000] GET /") = inr dt.
Proof.
  destruct (extract_datetime_token_cases (str "[10/Mar/2020:14:22:01 +0000] GET /")
              (str "[10/Mar/2020:14:22:01 +0000]") ltac:(vm_compute; reflexivity))
    as (_ & H7 & _).
  apply H7; vm_compute; reflexivity.
Defined.

(** ** C5: lines that are silently discarded *)

(** C5: a line whose domain field is empty (a line of spaces), or with
    no text after the domain field, or whose domain field splits into
    fewer than two labels, is decided as [Skip] before any timestamp
    extraction, whatever its access-log text: [process_entry] raises no
    error and leaves the world (files, directories, diagnostics) as it
    was. *)
Theorem process_entry_discards_unroutable (w : world) (k1 : nat) (dom : text)
    (k2 : nat) (acc : text) :
  no_space dom = true -> (1 <= k2 \/ acc = []) -> starts_nonspace acc = true ->
  (acc = [] \/ (dom <> [] /\ length (split_domain dom) < 2)) ->
  route (w_suffix w) (spaces k1 ++ dom ++ spaces k2 ++ acc) = inr Skip /\
  process_entry w (spaces k1 ++ dom ++ spaces k2 ++ acc) = inr w.
Proof.
  intros Hns Hk2 Hst Hcase.
  assert (Hr : route (w_suffix w) (spaces k1 ++ dom ++ spaces k2 ++ acc) = inr Skip).
  { destruct dom as [|d dom'].
    - destruct Hcase as [->|[Hne _]]; [|congruence].
      rewrite app_nil_l, app_nil_r, spaces_app. apply route_blank.
    - rewrite route_fields by (auto; discriminate).
      destruct Hcase as [->|[_ Hlab]]; [reflexivity|].
      destruct acc; [reflexivity|].
      replace (Nat.leb 2 (length (split_domain (d :: dom')))) with false
        by (symmetry; apply Nat.leb_gt; exact Hlab).
      reflexivity. }
  split; [exact Hr|].
  unfold process_entry. rewrite Hr. reflexivity.
Qed.

Lemma process_entry_discards_unroutable_witness :
  route (w_suffix sample_world)
    (spaces 0 ++ str "localhost" ++ spaces 1 ++ str "[10/Mar/2020:14:22:01 +0000] GET /") = inr Skip /\
  process_entry sample_world
    (spaces 0 ++ str "localhost" ++ spaces 1 ++ str "[10/Mar/2020:14:22:01 +0000] GET /") =
    inr sample_world.
Proof.
  apply (process_entry_discards_unroutable sample_world 0 (str "localhost") 1
           (str "[10/Mar/2020:14:22:01 +0000] GET /"));
  [reflexivity | left; lia | reflexivity | right; split; [discriminate | vm_compute; lia]].
Defined.

(** ** C6: [decDecode] on the empty string *)

(** C6: [decDecode] does not reject the empty string: [strtol] converts
    no digit and leaves its end pointer at the start, which already is
    the terminating NUL, so the check [*err != 0] passes and 0 is
    returned.  Trailing non-numeric content is rejected, but leading
    white space is skipped. *)
Theorem decDecode_empty_returns_zero :
  decDecode [] = inr 0%Z /\
  decDecode (str "12x") = inl ENotInteger /\
  decDecode (str "x") = inl ENotInteger /\
  decDecode (str " 12") = inr 12%Z.
Proof. vm_compute; repeat split. Qed.

(** ** C7: the suffix argument *)

(** C7: the filter [[a-z]*] always matches (at worst the empty match at
    position 0), so the suffix is ["."] followed by the leading run of
    lowercase letters of the argument; an argument with no leading
    lowercase letter, such as ["123"] or [""], gives the suffix ["."],
    not the empty string, and ["ab1cd"] gives [".ab"]. *)
Theorem suffix_of_args_always_dot :
  (forall prog arg rest, suffix_of_args (prog :: arg :: rest) [] = str "." ++ take_while is_lower arg) /\
  suffix_of_args [str "accesslog"; str "123"] [] = str "." /\
  suffix_of_args [str "accesslog"; []] [] = str "." /\
  suffix_of_args [str "accesslog"; str "ab1cd"] [] = str ".ab" /\
  (forall lines w, w_suffix (main [str "accesslog"; str "123"] lines w) = str ".").
Proof.
  split.
  - intros prog arg rest. unfold suffix_of_args. rewrite regex_search_lower_star. reflexivity.
  - split; [vm_compute; reflexivity|]. split; [vm_compute; reflexivity|].
    split; [vm_compute; reflexivity|].
    intros lines w. unfold main. rewrite process_lines_suffix. vm_compute; reflexivity.
Qed.

(** ** C8: the configuration is fixed *)

(** C8: [process_entry] reads the suffix of the world and never changes
    it (the prefix is a constant); its decision only depends on that
    suffix and the line; and processing any sequence of lines, errors
    included, leaves the suffix as it was set at startup. *)
Theorem process_entry_keeps_configuration :
  (forall w e w', process_entry w e = inr w' -> w_suffix w' = w_suffix w) /\
  (forall w e, process_entry w e = (a <- route (w_suffix w) e ;; inr (perform a w))) /\
  (forall w lines, w_suffix (process_lines w lines) = w_suffix w).
Proof.
  split; [|split; [reflexivity | exact process_lines_suffix]].
  intros w e w' H.
  pose proof (process_lines_suffix w [e]) as Hs. simpl in Hs.
  rewrite H in Hs. exact Hs.
Qed.

Lemma process_entry_keeps_configuration_witness :
  w_suffix (match process_entry (mkWorld (str ".x") (w_dirs sample_world) [] [])
                    (str "example.com [10/Mar/2020:14:22:01 +0000] GET /") with
            | inr w' => w'
            | inl _ => sample_world
            end) = str ".x".
Proof.
  apply (proj1 process_entry_keeps_configuration
           (mkWorld (str ".x") (w_dirs sample_world) [] [])
           (str "example.com [10/Mar/2020:14:22:01 +0000] GET /")).
  vm_compute; reflexivity.
Defined.

(** ** C9: [leadzero] on the empty string *)

(** C9: the guard of [leadzero] only applies to a non-empty string, so
    the empty string is padded to [w] zeros for every width [w]. *)
Theorem leadzero_empty (w : nat) : leadzero [] w = repeat "0"%char w.
Proof.
  unfold leadzero. rewrite leadzero_loop_pad by lia.
  unfold zero_pad. simpl length. rewrite Nat.sub_0_r, app_nil_r. reflexivity.
Qed.

(** ** C10: empty labels count *)

(** C10: a domain field with a ['.'] splits into at least two labels,
    empty ones included; ["."] splits into two empty labels; and a line
    with the domain field ["a."] is routed to the directory
    [{prefix}/a./logs/{YYYY}-{MM}{suffix}] and the file ["a."] in it. *)
Theorem split_domain_counts_empty_labels (dom : text) :
  In "."%char dom ->
  2 <= length (split_domain dom) /\
  split_domain (str ".") = [[]; []] /\
  (forall sfx k1 k2 acc dt,
     1 <= k2 -> acc <> [] -> starts_nonspace acc = true ->
     extract_datetime acc = inr dt ->
     route sfx (spaces k1 ++ str "a." ++ spaces k2 ++ acc) =
       inr (Store (prefix ++ str "/a./logs/" ++ yyyy (year dt) ++ str "-" ++
                   zero_pad 2 (decEncode (month dt)) ++ sfx)
                  ((prefix ++ str "/a./logs/" ++ yyyy (year dt) ++ str "-" ++
                    zero_pad 2 (decEncode (month dt)) ++ sfx) ++ str "/" ++ str "a.")
                  acc)).
Proof.
  intros Hin. split.
  - unfold split_domain. rewrite tokenize_keep_length.
    + assert (1 <= count_dropped (str ".") dom) by (apply (count_dropped_In _ _ "."%char); auto).
      lia.
    + intros ->; contradiction.
  - split; [vm_compute; reflexivity|].
    intros sfx k1 k2 acc dt Hk2 Hacc Hst Hdt.
    rewrite route_fields by (auto; discriminate).
    destruct acc as [|a acc']; [congruence|].
    change (Nat.leb 2 (length (split_domain (str "a.")))) with true.
    rewrite Hdt. cbn [bind].
    pose proof (extract_datetime_month _ _ Hdt) as Hm.
    rewrite log_dir_destination by lia. reflexivity.
Qed.

Lemma split_domain_counts_empty_labels_witness :
  2 <= length (split_domain (str "a.b")).
Proof.
  apply (split_domain_counts_empty_labels (str "a.b")). simpl; auto.
Defined.

(** * Further properties of the program *)

(** ** Decimal encoding and decoding: helper lemmas *)

Lemma digits_value_snoc (l : text) (c : ascii) :
  digits_value (l ++ [c]) = (digits_value l * 10 + (Z.of_nat (nat_of_ascii c) - 48))%Z.
Proof. unfold digits_value; rewrite fold_left_app; reflexivity. Qed.

Lemma digit_char_value (x : Z) :
  (0 <= x < 10)%Z -> (Z.of_nat (nat_of_ascii (digit_char x)) - 48)%Z = x.
Proof.
  intros Hx. unfold digit_char. rewrite nat_ascii_embedding by lia. lia.
Qed.

Lemma digit_char_zero (x : Z) : (0 < x < 10)%Z -> digit_char x <> "0"%char.
Proof.
  intros Hx He. apply (f_equal nat_of_ascii) in He.
  unfold digit_char in He. rewrite nat_ascii_embedding in He by lia.
  change (nat_of_ascii "0"%char) with 48 in He. lia.
Qed.

Lemma digits_rev_S (f : nat) (n : Z) (acc : text) :
  digits_rev (S f) n acc =
  if (n <? 10)%Z then digit_char (n mod 10) :: acc
  else digits_rev f (n / 10) (digit_char (n mod 10) :: acc).
Proof. reflexivity. Qed.

Lemma digits_rev_spec (f : nat) (n : Z) (acc : text) :
  (0 <= n < 10 ^ Z.of_nat (S f))%Z ->
  exists ds, digits_rev (S f) n acc = ds ++ acc /\ forallb is_digit ds = true /\
    digits_value ds = n /\
    ((n = 0%Z /\ ds = ["0"%char]) \/ exists c r, ds = c :: r /\ c <> "0"%char).
Proof.
  revert n acc; induction f as [|f IH]; intros n acc Hn.
  - simpl in Hn. rewrite digits_rev_S.
    replace (n <? 10)%Z with true by (symmetry; apply Z.ltb_lt; lia).
    rewrite Z.mod_small by lia.
    exists [digit_char n]; split; [reflexivity|]. split.
    + cbn [forallb]. rewrite andb_true_r. rewrite <- (Z.mod_small n 10) at 1 by lia.
      apply digit_char_is_digit.
    + split; [change [digit_char n] with ([] ++ [digit_char n]);
              rewrite digits_value_snoc, digit_char_value by lia; reflexivity|].
      destruct (Z.eq_dec n 0) as [->|Hn0]; [left; auto|].
      right. exists (digit_char n), []. split; [reflexivity|]. apply digit_char_zero; lia.
  - rewrite digits_rev_S.
    pose proof (Z.mod_pos_bound n 10 ltac:(lia)) as Hm.
    destruct (n <? 10)%Z eqn:E.
    + apply Z.ltb_lt in E. rewrite Z.mod_small by lia.
      exists [digit_char n]; split; [reflexivity|]. split.
      * cbn [forallb]. rewrite andb_true_r. rewrite <- (Z.mod_small n 10) at 1 by lia.
        apply digit_char_is_digit.
      * split; [change [digit_char n] with ([] ++ [digit_char n]);
                rewrite digits_value_snoc, digit_char_value by lia; reflexivity|].
        destruct (Z.eq_dec n 0) as [->|Hn0]; [left; auto|].
        right. exists (digit_char n), []. split; [reflexivity|]. apply digit_char_zero; lia.
    + apply Z.ltb_ge in E.
      assert (Hq : (0 <= n / 10 < 10 ^ Z.of_nat (S f))%Z).
      { split; [apply Z.div_pos; lia|]. apply Z.div_lt_upper_bound; [lia|].
        replace (Z.of_nat (S (S f))) with (Z.succ (Z.of_nat (S f))) in Hn by lia.
        rewrite Z.pow_succ_r in Hn by lia. lia. }
      destruct (IH (n / 10)%Z (digit_char (n mod 10)%Z :: acc) Hq)
        as [ds [Hds [Hdig [Hval Hhead]]]].
      exists (ds ++ [digit_char (n mod 10)%Z]). split.
      * rewrite Hds, <- app_assoc; reflexivity.
      * split; [rewrite forallb_app, Hdig; cbn [forallb]; rewrite digit_char_is_digit; reflexivity|].
        split.
        -- rewrite digits_value_snoc, digit_char_value, Hval by lia.
           pose proof (Z.div_mod n 10 ltac:(lia)). lia.
        -- right. destruct Hhead as [[Hz _]|[c [r [-> Hc]]]].
           ++ assert (1 <= n / 10)%Z by (apply Z.div_le_lower_bound; lia). lia.
           ++ exists c, (r ++ [digit_char (n mod 10)%Z]); split; auto.
Qed.

Lemma long_lt_pow20 : (2 ^ 63 < 10 ^ Z.of_nat (S 19))%Z.
Proof. reflexivity. Qed.

Lemma decEncode_spec (v : Z) :
  (LONG_MIN <= v <= LONG_MAX)%Z ->
  exists ds, decEncode v = (if (v <? 0)%Z then ["-"%char] else []) ++ ds /\
    forallb is_digit ds = true /\ digits_value ds = Z.abs v /\
    ((v = 0%Z /\ ds = ["0"%char]) \/ exists c r, ds = c :: r /\ c <> "0"%char).
Proof.
  unfold LONG_MIN, LONG_MAX. intros Hv. pose proof long_lt_pow20 as Hp.
  unfold decEncode. destruct (v <? 0)%Z eqn:E.
  - apply Z.ltb_lt in E.
    destruct (digits_rev_spec 19 (- v) [] ltac:(lia)) as [ds [Hds H]].
    exists ds. rewrite Hds, app_nil_r. split; [reflexivity|].
    rewrite Z.abs_neq by lia. destruct H as [Hd [Hval Hh]]. repeat split; auto.
    destruct Hh as [[Hz _]|Hh]; [lia|right; exact Hh].
  - apply Z.ltb_ge in E.
    destruct (digits_rev_spec 19 v [] ltac:(lia)) as [ds [Hds H]].
    exists ds. rewrite Hds, app_nil_r. split; [reflexivity|].
    rewrite Z.abs_eq by lia. exact H.
Qed.

Lemma forallb_not_nul (p : ascii -> bool) (s : text) :
  p NUL = false -> forallb p s = true -> forallb (fun c => negb (ascii_eqb c NUL)) s = true.
Proof.
  intros Hn. induction s as [|c s IH]; simpl; auto.
  intros H; apply andb_true_iff in H as [Hc Hs]. rewrite IH by exact Hs.
  destruct (ascii_eqb c NUL) eqn:E; auto.
  apply ascii_eqb_eq in E; subst; congruence.
Qed.

Lemma c_str_no_nul (s : text) :
  forallb (fun c => negb (ascii_eqb c NUL)) s = true -> c_str s = s.
Proof.
  unfold c_str. induction s as [|c s IH]; simpl; auto.
  intros H; apply andb_true_iff in H as [Hc Hs]. rewrite Hc, IH; auto.
Qed.

Lemma c_str_cut (s r : text) :
  forallb (fun c => negb (ascii_eqb c NUL)) s = true -> c_str (s ++ NUL :: r) = s.
Proof.
  unfold c_str. induction s as [|c s IH]; simpl.
  - try rewrite ascii_eqb_refl; reflexivity.
  - intros H; apply andb_true_iff in H as [Hc Hs]. rewrite Hc, IH; auto.
Qed.

Lemma take_while_all (p : ascii -> bool) (s : text) : forallb p s = true -> take_while p s = s.
Proof. intros H; rewrite <- (app_nil_r s) at 1; rewrite take_while_app_all by exact H; apply app_nil_r. Qed.

Lemma drop_while_all (p : ascii -> bool) (s : text) : forallb p s = true -> drop_while p s = [].
Proof.
  induction s as [|c s IH]; simpl; auto.
  intros H; apply andb_true_iff in H as [Hc Hs]. rewrite Hc; auto.
Qed.

Lemma drop_while_app_all (p : ascii -> bool) (l r : text) :
  forallb p l = true -> drop_while p (l ++ r) = drop_while p r.
Proof.
  induction l as [|c l IH]; simpl; auto.
  intros H; apply andb_true_iff in H as [Hc Hs]. rewrite Hc; auto.
Qed.

Lemma take_drop_while (p : ascii -> bool) (s : text) : s = take_while p s ++ drop_while p s.
Proof. induction s as [|c s IH]; simpl; auto. destruct (p c); simpl; f_equal; auto. Qed.

Lemma forallb_take_while (p : ascii -> bool) (s : text) : forallb p (take_while p s) = true.
Proof. induction s as [|c s IH]; simpl; auto. destruct (p c) eqn:E; simpl; auto. rewrite E; auto. Qed.

Lemma drop_while_head (p : ascii -> bool) (s : text) :
  match drop_while p s with [] => True | c :: _ => p c = false end.
Proof. induction s as [|c s IH]; simpl; auto. destruct (p c) eqn:E; auto. Qed.

(** The value [strtol] returns for optional white space, an optional
    sign and digits. *)
Lemma strtol_digits (ws sg ds : text) :
  forallb is_space ws = true -> ds <> [] -> forallb is_digit ds = true ->
  (sg = [] \/ sg = ["+"%char] \/ sg = ["-"%char]) ->
  strtol (ws ++ sg ++ ds) =
    ((if text_eqb sg ["-"%char] then Z.max LONG_MIN (- digits_value ds)
      else Z.min LONG_MAX (digits_value ds)), []).
Proof.
  intros Hws Hne Hds Hsg. unfold strtol.
  rewrite drop_while_app_all by exact Hws.
  destruct ds as [|d ds']; [congruence|].
  assert (Hd : is_digit d = true) by (simpl in Hds; apply andb_true_iff in Hds; tauto).
  assert (Hdsp : is_space d = false).
  { destruct (is_space d) eqn:E; auto. unfold is_space, is_digit in *.
    apply andb_true_iff in Hd as [H1 H2]. apply Nat.leb_le in H1, H2.
    apply orb_true_iff in E as [E|E];
      [apply Nat.eqb_eq in E|apply andb_true_iff in E as [E1 E2];
                             apply Nat.leb_le in E1, E2]; lia. }
  assert (Hdm : ascii_eqb d "-"%char = false).
  { destruct (ascii_eqb d "-"%char) eqn:E; auto. apply ascii_eqb_eq in E; subst; discriminate. }
  assert (Hdp : ascii_eqb d "+"%char = false).
  { destruct (ascii_eqb d "+"%char) eqn:E; auto. apply ascii_eqb_eq in E; subst; discriminate. }
  assert (Hstop : forall c r, is_space c = false -> drop_while is_space (c :: r) = c :: r).
  { intros c r Hc; simpl; rewrite Hc; reflexivity. }
  destruct Hsg as [ ->|[ ->| ->]]; cbn [app].
  - rewrite (Hstop d) by exact Hdsp. cbv iota beta zeta.
    rewrite Hdm, Hdp. cbv iota beta zeta.
    rewrite take_while_all, drop_while_all by exact Hds. reflexivity.
  - rewrite (Hstop "+"%char) by reflexivity. cbv iota beta zeta.
    replace (ascii_eqb "+"%char "-"%char) with false by reflexivity.
    rewrite ascii_eqb_refl. cbv iota beta zeta.
    rewrite take_while_all, drop_while_all by exact Hds. reflexivity.
  - rewrite (Hstop "-"%char) by reflexivity. cbv iota beta zeta.
    rewrite ascii_eqb_refl. cbv iota beta zeta.
    rewrite take_while_all, drop_while_all by exact Hds. reflexivity.
Qed.

Lemma strtol_tail_cases (u ws sg s2 : text) (neg : bool) (v : Z) (err : text) :
  u = ws ++ sg ++ s2 -> forallb is_space ws = true ->
  (sg = [] \/ sg = ["+"%char] \/ sg = ["-"%char]) ->
  (let ds := take_while is_digit s2 in
   let rest := drop_while is_digit s2 in
   match ds with
   | [] => (0%Z, u)
   | _ => let v := digits_value ds in
          ((if neg then Z.max LONG_MIN (- v) else Z.min LONG_MAX v)%Z, rest)
   end) = (v, err) ->
  (v = 0%Z /\ err = u) \/
  exists ws sg ds, u = ws ++ sg ++ ds ++ err /\ forallb is_space ws = true /\
    (sg = [] \/ sg = ["+"%char] \/ sg = ["-"%char]) /\ ds <> [] /\ forallb is_digit ds = true.
Proof.
  intros Hu Hws Hsg H. cbv zeta in H.
  pose proof (take_drop_while is_digit s2) as Hs2.
  pose proof (forallb_take_while is_digit s2) as Hds.
  destruct (take_while is_digit s2) as [|d ds] eqn:Etw.
  - injection H as <- <-. left; auto.
  - injection H as _ <-. right. exists ws, sg, (d :: ds).
    split; [|split; [exact Hws|split; [exact Hsg|split; [discriminate|exact Hds]]]].
    rewrite Hu, Hs2 at 1. reflexivity.
Qed.

(** Every result of [strtol]: no conversion (value 0, end pointer at the
    start), or white space, a sign and digits before the end pointer. *)
Lemma strtol_cases (u : text) (v : Z) (err : text) :
  strtol u = (v, err) ->
  (v = 0%Z /\ err = u) \/
  exists ws sg ds, u = ws ++ sg ++ ds ++ err /\ forallb is_space ws = true /\
    (sg = [] \/ sg = ["+"%char] \/ sg = ["-"%char]) /\ ds <> [] /\ forallb is_digit ds = true.
Proof.
  unfold strtol. intros H.
  pose proof (take_drop_while is_space u) as Hu.
  pose proof (forallb_take_while is_space u) as Hws.
  destruct (drop_while is_space u) as [|c r] eqn:Es1.
  - exact (strtol_tail_cases u _ [] [] false v err Hu Hws (or_introl eq_refl) H).
  - cbv beta iota zeta in H.
    destruct (ascii_eqb c "-"%char) eqn:Em.
    + apply ascii_eqb_eq in Em; subst c.
      try rewrite ascii_eqb_refl in H.
      exact (strtol_tail_cases u _ ["-"%char] r true v err Hu Hws
               (or_intror (or_intror eq_refl)) H).
    + try rewrite Em in H. destruct (ascii_eqb c "+"%char) eqn:Ep.
      * apply ascii_eqb_eq in Ep; subst c. try rewrite ascii_eqb_refl in H.
        exact (strtol_tail_cases u _ ["+"%char] r false v err Hu Hws
                 (or_intror (or_introl eq_refl)) H).
      * try rewrite Ep in H.
        exact (strtol_tail_cases u _ [] (c :: r) false v err Hu Hws (or_introl eq_refl) H).
Qed.

(** ** Decimal encoding and decoding *)

(** [decEncode] writes the canonical decimal form of every [long int]:
    a minus sign for a negative value, then a non-empty string of digits
    whose value is the absolute value, without leading zero (except for
    the value 0, written ["0"]). *)
Theorem decEncode_canonical (v : Z) :
  (LONG_MIN <= v <= LONG_MAX)%Z ->
  exists ds, decEncode v = (if (v <? 0)%Z then ["-"%char] else []) ++ ds /\
    forallb is_digit ds = true /\ digits_value ds = Z.abs v /\
    ((v = 0%Z /\ ds = ["0"%char]) \/ exists c r, ds = c :: r /\ c <> "0"%char).
Proof. exact (decEncode_spec v). Qed.

Lemma decEncode_canonical_witness :
  exists ds, decEncode (-2020) = ["-"%char] ++ ds /\
    forallb is_digit ds = true /\ digits_value ds = Z.abs (-2020) /\
    (((-2020)%Z = 0%Z /\ ds = ["0"%char]) \/ exists c r, ds = c :: r /\ c <> "0"%char).
Proof.
  apply (decEncode_canonical (-2020)). vm_compute; split; discriminate.
Defined.

(** Decoding the encoding of a [long int] gives it back. *)
Theorem decDecode_decEncode (v : Z) :
  (LONG_MIN <= v <= LONG_MAX)%Z -> decDecode (decEncode v) = inr v.
Proof.
  intros Hv. destruct (decEncode_spec v Hv) as [ds [He [Hd [Hval Hh]]]].
  assert (Hne : ds <> []) by (destruct Hh as [[_ ->]|[c [r [-> _]]]]; discriminate).
  unfold decDecode. rewrite He.
  unfold LONG_MIN, LONG_MAX in Hv.
  destruct (v <? 0)%Z eqn:E.
  - apply Z.ltb_lt in E.
    rewrite c_str_no_nul.
    + change (["-"%char] ++ ds) with ([] ++ ["-"%char] ++ ds).
      rewrite strtol_digits by auto.
      rewrite text_eqb_refl, Hval, Z.abs_neq by lia.
      unfold LONG_MIN. f_equal. lia.
    + simpl. rewrite (forallb_not_nul is_digit) by (auto; reflexivity). reflexivity.
  - apply Z.ltb_ge in E.
    rewrite c_str_no_nul by (apply (forallb_not_nul is_digit); auto).
    change ([] ++ ds) with ([] ++ [] ++ ds).
    rewrite strtol_digits by auto. simpl text_eqb.
    rewrite Hval, Z.abs_eq by lia. unfold LONG_MAX. f_equal. lia.
Qed.

Lemma decDecode_decEncode_witness : decDecode (decEncode (-9223372036854775808)) = inr (-9223372036854775808)%Z.
Proof. apply decDecode_decEncode. vm_compute; split; discriminate. Defined.

(** What [decDecode] accepts: optional white space ([isspace]), an
    optional sign and a non-empty string of digits.  The value is the
    decimal value of the digits, negated after a minus sign, and
    saturated at [LONG_MAX] and [LONG_MIN]: an overflow is never
    reported. *)
Theorem decDecode_sign_digits (ws ds : text) :
  forallb is_space ws = true -> ds <> [] -> forallb is_digit ds = true ->
  decDecode (ws ++ ds) = inr (Z.min LONG_MAX (digits_value ds)) /\
  decDecode (ws ++ "+"%char :: ds) = inr (Z.min LONG_MAX (digits_value ds)) /\
  decDecode (ws ++ "-"%char :: ds) = inr (Z.max LONG_MIN (- digits_value ds)).
Proof.
  intros Hws Hne Hds.
  assert (Hn : forall sg, (sg = [] \/ sg = ["+"%char] \/ sg = ["-"%char]) ->
                 c_str (ws ++ sg ++ ds) = ws ++ sg ++ ds).
  { intros sg Hsg. apply c_str_no_nul. rewrite !forallb_app.
    rewrite (forallb_not_nul is_space ws), (forallb_not_nul is_digit ds) by (auto; reflexivity).
    destruct Hsg as [ ->|[ ->| ->]]; reflexivity. }
  unfold decDecode. split; [|split].
  - change (ws ++ ds) with (ws ++ [] ++ ds).
    rewrite Hn, strtol_digits by auto. reflexivity.
  - change (ws ++ "+"%char :: ds) with (ws ++ ["+"%char] ++ ds).
    rewrite Hn, strtol_digits by auto. reflexivity.
  - change (ws ++ "-"%char :: ds) with (ws ++ ["-"%char] ++ ds).
    rewrite Hn, strtol_digits by auto. reflexivity.
Qed.

Lemma decDecode_sign_digits_witness :
  decDecode (str " " ++ str "99999999999999999999") = inr LONG_MAX /\
  decDecode (str " " ++ "+"%char :: str "99999999999999999999") = inr LONG_MAX /\
  decDecode (str " " ++ "-"%char :: str "99999999999999999999") = inr LONG_MIN.
Proof.
  apply (decDecode_sign_digits (str " ") (str "99999999999999999999"));
  [reflexivity | discriminate | reflexivity].
Defined.

(** [decDecode] accepts nothing else: a success comes from the empty
    string (up to the first NUL), decoded as 0, or from optional white
    space, an optional sign and a non-empty string of digits, with
    nothing after them. *)
Theorem decDecode_accepted_forms (s : text) (v : Z) :
  decDecode s = inr v ->
  (c_str s = [] /\ v = 0%Z) \/
  exists ws sg ds, c_str s = ws ++ sg ++ ds /\ forallb is_space ws = true /\
    (sg = [] \/ sg = ["+"%char] \/ sg = ["-"%char]) /\ ds <> [] /\ forallb is_digit ds = true.
Proof.
  unfold decDecode. destruct (strtol (c_str s)) as [val err] eqn:E.
  destruct err as [|x r]; [|discriminate]. intros H; injection H as <-.
  destruct (strtol_cases _ _ _ E) as [[-> <-]|[ws [sg [ds [Hu Hrest]]]]].
  - left; auto.
  - right. exists ws, sg, ds. rewrite app_nil_r in Hu. auto.
Qed.

Lemma decDecode_accepted_forms_witness :
  (c_str (str " -42") = [] /\ (-42)%Z = 0%Z) \/
  exists ws sg ds, c_str (str " -42") = ws ++ sg ++ ds /\ forallb is_space ws = true /\
    (sg = [] \/ sg = ["+"%char] \/ sg = ["-"%char]) /\ ds <> [] /\ forallb is_digit ds = true.
Proof. apply decDecode_accepted_forms. vm_compute; reflexivity. Defined.

(** [decDecode] reads its argument through [c_str()]: everything from
    the first NUL character on is ignored. *)
Theorem decDecode_stops_at_nul (s r : text) :
  forallb (fun c => negb (ascii_eqb c NUL)) s = true ->
  decDecode (s ++ NUL :: r) = decDecode s.
Proof.
  intros Hs. unfold decDecode. rewrite c_str_cut, (c_str_no_nul s) by exact Hs. reflexivity.
Qed.

Lemma decDecode_stops_at_nul_witness :
  decDecode (str "42" ++ NUL :: str "junk") = decDecode (str "42").
Proof. apply decDecode_stops_at_nul. reflexivity. Defined.


(** ** [monthDecode] *)

Lemma month_index_found (t : text) (names : list string) (k m : Z) :
  month_index t names k = inr m ->
  exists i, i < length names /\ t = str (nth i names ""%string) /\ m = (k + Z.of_nat i)%Z.
Proof.
  revert k; induction names as [|n ns IH]; intros k H; simpl in H; [discriminate|].
  destruct (text_eqb t (str n)) eqn:E.
  - injection H as <-. apply text_eqb_eq in E. exists 0. simpl. split; [lia|split; [exact E|lia]].
  - destruct (IH _ H) as [i [Hi [Ht Hm]]]. exists (S i). simpl.
    split; [lia|split; [exact Ht|lia]].
Qed.

Lemma month_index_error (t : text) (names : list string) (k : Z) (e : error) :
  month_index t names k = inl e -> e = EInvalidMonth t.
Proof.
  revert k; induction names as [|n ns IH]; intros k H; simpl in H.
  - injection H as <-; reflexivity.
  - destruct (text_eqb t (str n)); [discriminate|]. exact (IH _ H).
Qed.

(** [monthDecode] accepts exactly the twelve English abbreviations
    ["Jan"] to ["Dec"] (case-sensitive), numbered 1 to 12; on any other
    text it raises [Invalid month] carrying that text. *)
Theorem monthDecode_abbreviations (t : text) :
  (forall m, monthDecode t = inr m <->
     exists i, i < 12 /\ t = str (nth i month_names ""%string) /\ m = (Z.of_nat i + 1)%Z) /\
  (forall e, monthDecode t = inl e -> e = EInvalidMonth t).
Proof.
  split.
  - intros m. split.
    + intros H. destruct (month_index_found _ _ _ _ H) as [i [Hi [Ht Hm]]].
      exists i. simpl in Hi. split; [exact Hi|split; [exact Ht|lia]].
    + intros [i [Hi [-> ->]]].
      do 12 (destruct i as [|i]; [vm_compute; reflexivity|]). lia.
  - intros e. apply month_index_error.
Qed.

Lemma monthDecode_abbreviations_witness : monthDecode (str "Mar") = inr 3%Z.
Proof.
  apply (proj2 (proj1 (monthDecode_abbreviations (str "Mar")) 3%Z)).
  exists 2. split; [lia|split; reflexivity].
Defined.


(** ** [find_first] and [find_until] *)

Lemma nth_error_skipn_add (s : text) (n i : nat) : nth_error (skipn n s) i = nth_error s (n + i).
Proof. revert s; induction n as [|n IH]; intros [|c s]; simpl; auto. destruct i; reflexivity. Qed.

Lemma take_while_nth (p : ascii -> bool) (l : text) (i : nat) :
  i < length (take_while p l) -> exists x, nth_error l i = Some x /\ p x = true.
Proof.
  revert i; induction l as [|c l IH]; intros i Hi; simpl in Hi; [lia|].
  destruct (p c) eqn:E; simpl in Hi; [|lia].
  destruct i as [|i]; simpl; [exists c; auto|]. apply IH; lia.
Qed.

Lemma take_while_stop_nth (p : ascii -> bool) (l : text) :
  length (take_while p l) < length l ->
  exists x, nth_error l (length (take_while p l)) = Some x /\ p x = false.
Proof.
  induction l as [|c l IH]; intros H; simpl in H |- *; [lia|].
  destruct (p c) eqn:E; simpl in *.
  - apply IH; lia.
  - exists c; auto.
Qed.

Lemma take_while_length_le (p : ascii -> bool) (l : text) : length (take_while p l) <= length l.
Proof. induction l as [|c l IH]; simpl; [lia|]. destruct (p c); simpl; lia. Qed.

Lemma find_loop_past_end (s : text) (c : ascii) (start : nat) :
  length s <= start ->
  find_first s c start = length s /\ find_until s c start = length s.
Proof.
  intros H. unfold find_first, find_until.
  assert (Hn : nth_error s start = None) by (apply nth_error_None; lia).
  destruct s as [|x s']; [split; reflexivity|].
  cbn [length find_first_loop find_until_loop]. rewrite Hn. split; reflexivity.
Qed.

(** [find_first s c start] is the first index at or after [start] that
    holds [c], or the length of [s] when there is none (also when
    [start] is past the end). *)
Theorem find_first_first_occurrence (s : text) (c : ascii) (start : nat) :
  (length s <= start -> find_first s c start = length s) /\
  (start <= length s ->
   start <= find_first s c start <= length s /\
   (forall i, start <= i < find_first s c start -> nth_error s i <> Some c) /\
   (find_first s c start < length s -> nth_error s (find_first s c start) = Some c)).
Proof.
  split; [intros H; apply (find_loop_past_end s c start H)|].
  intros Hs. rewrite find_first_spec by exact Hs.
  set (p := fun x => negb (ascii_eqb x c)).
  pose proof (take_while_length_le p (skipn start s)) as Hle.
  rewrite length_skipn in Hle.
  split; [lia|split].
  - intros i Hi Hc.
    destruct (take_while_nth p (skipn start s) (i - start) ltac:(lia)) as [x [Hx Hp]].
    rewrite nth_error_skipn_add in Hx. replace (start + (i - start)) with i in Hx by lia.
    rewrite Hc in Hx. injection Hx as <-. unfold p in Hp. rewrite ascii_eqb_refl in Hp. discriminate.
  - intros Hl.
    destruct (take_while_stop_nth p (skipn start s) ltac:(rewrite length_skipn; lia)) as [x [Hx Hp]].
    rewrite nth_error_skipn_add in Hx. rewrite Hx.
    unfold p in Hp. destruct (ascii_eqb x c) eqn:E; [|discriminate].
    apply ascii_eqb_eq in E; subst; reflexivity.
Qed.

(** [find_until s c start] is the first index at or after [start] that
    does not hold [c], or the length of [s] when there is none (also
    when [start] is past the end). *)
Theorem find_until_first_other (s : text) (c : ascii) (start : nat) :
  (length s <= start -> find_until s c start = length s) /\
  (start <= length s ->
   start <= find_until s c start <= length s /\
   (forall i, start <= i < find_until s c start -> nth_error s i = Some c) /\
   (find_until s c start < length s ->
    exists x, nth_error s (find_until s c start) = Some x /\ x <> c)).
Proof.
  split; [intros H; apply (find_loop_past_end s c start H)|].
  intros Hs. rewrite find_until_spec by exact Hs.
  set (p := fun x => ascii_eqb x c).
  pose proof (take_while_length_le p (skipn start s)) as Hle.
  rewrite length_skipn in Hle.
  split; [lia|split].
  - intros i Hi.
    destruct (take_while_nth p (skipn start s) (i - start) ltac:(lia)) as [x [Hx Hp]].
    rewrite nth_error_skipn_add in Hx. replace (start + (i - start)) with i in Hx by lia.
    rewrite Hx. unfold p in Hp. apply ascii_eqb_eq in Hp; subst; reflexivity.
  - intros Hl.
    destruct (take_while_stop_nth p (skipn start s) ltac:(rewrite length_skipn; lia)) as [x [Hx Hp]].
    rewrite nth_error_skipn_add in Hx. exists x. split; [exact Hx|].
    intros ->. unfold p in Hp. rewrite ascii_eqb_refl in Hp. discriminate.
Qed.

Lemma find_first_first_occurrence_witness :
  3 <= find_first (str "a.b.c") "."%char 3 <= length (str "a.b.c") /\
  (forall i, 3 <= i < find_first (str "a.b.c") "."%char 3 ->
     nth_error (str "a.b.c") i <> Some "."%char) /\
  (find_first (str "a.b.c") "."%char 3 < length (str "a.b.c") ->
   nth_error (str "a.b.c") (find_first (str "a.b.c") "."%char 3) = Some "."%char).
Proof. apply (find_first_first_occurrence (str "a.b.c") "."%char 3). simpl; lia. Defined.

Lemma find_until_first_other_witness :
  0 <= find_until (str "  x") " "%char 0 <= length (str "  x") /\
  (forall i, 0 <= i < find_until (str "  x") " "%char 0 -> nth_error (str "  x") i = Some " "%char) /\
  (find_until (str "  x") " "%char 0 < length (str "  x") ->
   exists x, nth_error (str "  x") (find_until (str "  x") " "%char 0) = Some x /\ x <> " "%char).
Proof. apply (find_until_first_other (str "  x") " "%char 0). simpl; lia. Defined.

(** ** [leadzero] *)

(** [leadzero s num] in closed form: a string that starts with a
    non-digit is returned as it is; any other string (the empty one
    included) gets zeros on the left up to [num] characters, and is never
    shortened. *)
Theorem leadzero_closed_form (s : text) (num : nat) :
  leadzero s num =
  match s with
  | c :: _ => if is_digit c then repeat "0"%char (num - length s) ++ s else s
  | [] => repeat "0"%char num
  end.
Proof.
  unfold leadzero. destruct s as [|c r].
  - rewrite leadzero_loop_pad by (simpl; lia). unfold zero_pad. simpl.
    rewrite Nat.sub_0_r, app_nil_r; reflexivity.
  - destruct (is_digit c); simpl; [|reflexivity].
    rewrite leadzero_loop_pad by (simpl; lia). reflexivity.
Qed.


(** ** The two tokenizers *)

Lemma is_dropped_dot (c : ascii) : is_dropped (str ".") c = true -> c = "."%char.
Proof.
  intros H. apply existsb_exists in H as [x [Hin Hx]].
  simpl in Hin. destruct Hin as [<-|[]]. apply ascii_eqb_eq; exact Hx.
Qed.

Lemma no_dropped_not_in (dropped t : text) (c : ascii) :
  count_dropped dropped t = 0 -> is_dropped dropped c = true -> ~ In c t.
Proof. intros H Hc Hin. pose proof (count_dropped_In dropped t c Hin Hc). lia. Qed.

Lemma tokens_keep_join (fuel : nat) (r : text) :
  length r < fuel -> at_delimiter (str ".") r ->
  flat_map (fun u => "."%char :: u) (tokens_loop (str ".") keep_empty_tokens fuel r true) = r /\
  Forall (fun t => count_dropped (str ".") t = 0)
    (tokens_loop (str ".") keep_empty_tokens fuel r true).
Proof.
  revert r; induction fuel as [|f IH]; intros r Hf Hr; [lia|].
  destruct r as [|c r']; [split; [reflexivity|constructor]|].
  change (is_dropped (str ".") c = true) in Hr.
  cbn [tokens_loop]. unfold sep_next. rewrite Hr. cbn [negb andb].
  pose proof (take_token_spec (str ".") r') as Ht.
  destruct (take_token (str ".") r') as [t r''].
  destruct Ht as [Heq [Hct Hat]].
  assert (Hl : length r'' < f) by (rewrite Heq in Hf; simpl in Hf; rewrite length_app in Hf; lia).
  destruct (IH r'' Hl Hat) as [Hj Hc].
  split.
  - cbn [flat_map]. rewrite Hj, (is_dropped_dot c Hr), Heq. reflexivity.
  - constructor; assumption.
Qed.

(** [split_domain] loses nothing: for a non-empty domain field, its
    labels contain no ['.'] and, joined back with ['.'], give the domain
    field; there is one label more than there are dots.  The empty text
    gives no label at all. *)
Theorem split_domain_join (dom : text) :
  split_domain [] = [] /\
  (dom <> [] ->
   join "."%char (split_domain dom) = dom /\
   Forall (fun t => ~ In "."%char t) (split_domain dom) /\
   length (split_domain dom) = S (count_occ ascii_dec dom "."%char)).
Proof.
  split; [reflexivity|]. intros Hne.
  assert (Hmain : join "."%char (split_domain dom) = dom /\
                  Forall (fun t => count_dropped (str ".") t = 0) (split_domain dom)).
  { destruct dom as [|c s0]; [congruence|].
    unfold split_domain, tokenize. cbn [tokens_loop length Nat.add].
    rewrite sep_next_keep_first.
    destruct (is_dropped (str ".") c) eqn:E.
    - match goal with
      | |- context [tokens_loop _ _ ?f (c :: s0) true] =>
          destruct (tokens_keep_join f (c :: s0) ltac:(simpl; lia) E) as [Hj Hc]
      end.
      split; [cbn [join]; rewrite Hj; reflexivity|].
      constructor; [reflexivity|exact Hc].
    - pose proof (take_token_spec (str ".") (c :: s0)) as Ht.
      destruct (take_token (str ".") (c :: s0)) as [t r] eqn:Etk.
      destruct Ht as [Heq [Hct Hat]].
      assert (Hl : length (c :: s0) = length t + length r) by (rewrite Heq; apply length_app).
      match goal with
      | |- context [tokens_loop _ _ ?f r true] =>
          destruct (tokens_keep_join f r ltac:(simpl in *; lia) Hat) as [Hj Hc]
      end.
      split; [cbn [join]; rewrite Hj; symmetry; exact Heq|].
      constructor; assumption. }
  destruct Hmain as [Hj Hc]. split; [exact Hj|split].
  - eapply Forall_impl; [|exact Hc]. intros t Ht.
    apply (no_dropped_not_in (str ".")); [exact Ht|reflexivity].
  - unfold split_domain. rewrite tokenize_keep_length by exact Hne.
    f_equal. unfold count_dropped. clear.
    induction dom as [|c d IH]; [reflexivity|].
    cbn [filter count_occ].
    destruct (ascii_dec c "."%char) as [->|Hc].
    + replace (is_dropped (str ".") "."%char) with true by reflexivity.
      cbn [length]; rewrite IH; reflexivity.
    + destruct (is_dropped (str ".") c) eqn:E; [apply is_dropped_dot in E; contradiction|].
      exact IH.
Qed.

Lemma split_domain_join_witness :
  join "."%char (split_domain (str "www..example.com.")) = str "www..example.com." /\
  Forall (fun t => ~ In "."%char t) (split_domain (str "www..example.com.")) /\
  length (split_domain (str "www..example.com.")) =
    S (count_occ ascii_dec (str "www..example.com.") "."%char).
Proof. apply (split_domain_join (str "www..example.com.")). discriminate. Defined.

Lemma filter_no_dropped (dropped t : text) :
  count_dropped dropped t = 0 -> filter (fun c => negb (is_dropped dropped c)) t = t.
Proof.
  unfold count_dropped. induction t as [|c t IH]; simpl; auto.
  destruct (is_dropped dropped c); simpl; [discriminate|]. intros H; f_equal; auto.
Qed.

Lemma filter_all_dropped (dropped t : text) :
  forallb (is_dropped dropped) t = true -> filter (fun c => negb (is_dropped dropped c)) t = [].
Proof.
  induction t as [|c t IH]; simpl; auto.
  intros H; apply andb_true_iff in H as [Hc Ht]. rewrite Hc; simpl; auto.
Qed.

Lemma tokens_drop_spec (dropped : text) (fuel : nat) (s : text) (b : bool) :
  length s < fuel ->
  concat (tokens_loop dropped drop_empty_tokens fuel s b) =
    filter (fun c => negb (is_dropped dropped c)) s /\
  Forall (fun t => t <> [] /\ count_dropped dropped t = 0)
    (tokens_loop dropped drop_empty_tokens fuel s b).
Proof.
  revert s; induction fuel as [|f IH]; intros s Hf; [lia|].
  cbn [tokens_loop]. unfold sep_next.
  pose proof (take_drop_while (is_dropped dropped) s) as Hs.
  pose proof (forallb_take_while (is_dropped dropped) s) as Hpre.
  pose proof (drop_while_head (is_dropped dropped) s) as Hhead.
  assert (Hfs : filter (fun c => negb (is_dropped dropped c)) s =
                filter (fun c => negb (is_dropped dropped c)) (drop_while (is_dropped dropped) s)).
  { rewrite Hs at 1. rewrite filter_app, filter_all_dropped by exact Hpre. reflexivity. }
  assert (Hlen : length (drop_while (is_dropped dropped) s) <= length s).
  { rewrite Hs at 2. rewrite length_app. lia. }
  rewrite Hfs. clear Hs Hfs Hpre.
  destruct (drop_while (is_dropped dropped) s) as [|c r] eqn:E.
  - split; [reflexivity|constructor].
  - pose proof (take_token_spec dropped (c :: r)) as Ht.
    destruct (take_token dropped (c :: r)) as [t r'] eqn:Etk.
    destruct Ht as [Heq [Hct _]].
    assert (Htne : t <> []).
    { intros ->. simpl in Etk. rewrite Hhead in Etk.
      destruct (take_token dropped r); discriminate. }
    assert (Hl : length r' < f).
    { assert (length (c :: r) = length t + length r') by (rewrite Heq; apply length_app).
      destruct t; [congruence|]. simpl in *; lia. }
    destruct (IH r' Hl) as [Hc Hall].
    split.
    + cbn [concat]. rewrite Hc, Heq, filter_app, (filter_no_dropped dropped t Hct). reflexivity.
    + constructor; [split; assumption|exact Hall].
Qed.

(** The tokens [extract_datetime] reads from a text: none is empty,
    none contains one of the five separators ['['], ['/'], [':'], [' ']
    and [']'], and together they are the text with the separators
    removed. *)
Theorem datetime_tokens_shape (m : text) :
  concat (tokenize datetime_separators drop_empty_tokens m) =
    filter (fun c => negb (is_dropped datetime_separators c)) m /\
  Forall (fun t => t <> [] /\ forall c, In c datetime_separators -> ~ In c t)
    (tokenize datetime_separators drop_empty_tokens m).
Proof.
  destruct m as [|x m']; [split; [reflexivity|constructor]|].
  unfold tokenize.
  destruct (tokens_drop_spec datetime_separators (length (x :: m') + 2) (x :: m') false
              ltac:(lia)) as [Hc Hall].
  split; [exact Hc|].
  eapply Forall_impl; [|exact Hall]. intros t [Hne Hct]. split; [exact Hne|].
  intros c Hin. apply (no_dropped_not_in datetime_separators); [exact Hct|].
  unfold is_dropped. apply existsb_exists. exists c. split; [exact Hin|apply ascii_eqb_refl].
Qed.


(** ** Fields of any line *)

Lemma spaces_of (l : text) :
  forallb (fun c => ascii_eqb c " "%char) l = true -> l = spaces (length l).
Proof.
  induction l as [|c l IH]; intros H; [reflexivity|].
  simpl in H; apply andb_true_iff in H as [Hc Hl]. apply ascii_eqb_eq in Hc; subst.
  change (" "%char :: l = " "%char :: spaces (length l)). f_equal; apply IH; exact Hl.
Qed.

(** Every line is spaces only, or leading spaces, a domain field,
    spaces and an access-log text as [route_fields] takes them. *)
Lemma line_fields (e : text) :
  e = spaces (length e) \/
  exists k1 dom k2 acc, e = spaces k1 ++ dom ++ spaces k2 ++ acc /\
    dom <> [] /\ no_space dom = true /\ (1 <= k2 \/ acc = []) /\ starts_nonspace acc = true.
Proof.
  set (sp := fun c => ascii_eqb c " "%char).
  set (nsp := fun c => negb (ascii_eqb c " "%char)).
  pose proof (take_drop_while sp e) as He.
  pose proof (spaces_of _ (forallb_take_while sp e)) as Hk1.
  pose proof (drop_while_head sp e) as Hh1.
  destruct (drop_while sp e) as [|c r] eqn:E1.
  - left. rewrite app_nil_r in He. rewrite He. exact Hk1.
  - right.
    set (rest1 := c :: r) in *.
    pose proof (take_drop_while nsp rest1) as Hr1.
    pose proof (drop_while_head nsp rest1) as Hh2.
    set (rest2 := drop_while nsp rest1) in *.
    pose proof (take_drop_while sp rest2) as Hr2.
    pose proof (spaces_of _ (forallb_take_while sp rest2)) as Hk2.
    pose proof (drop_while_head sp rest2) as Hh3.
    exists (length (take_while sp e)), (take_while nsp rest1),
           (length (take_while sp rest2)), (drop_while sp rest2).
    split; [|split; [|split; [|split]]].
    + rewrite He at 1. rewrite Hk1 at 1. f_equal. rewrite Hr1 at 1. f_equal.
      rewrite Hr2 at 1. rewrite Hk2 at 1. reflexivity.
    + subst rest1. simpl. unfold nsp at 1. unfold sp in Hh1. rewrite Hh1. discriminate.
    + exact (forallb_take_while nsp rest1).
    + destruct rest2 as [|d r2] eqn:E2; [right; reflexivity|left].
      unfold nsp in Hh2. simpl. destruct (sp d) eqn:Ed; simpl; [lia|].
      unfold sp in Ed. rewrite Ed in Hh2. discriminate.
    + unfold starts_nonspace. destruct (drop_while sp rest2) as [|d r3]; auto.
      unfold sp in Hh3. rewrite Hh3. reflexivity.
Qed.

(** [process_entry] skips the leading spaces of a line: adding spaces in
    front of a line never changes how it is routed. *)
Theorem route_leading_spaces (sfx e : text) (k : nat) :
  route sfx (spaces k ++ e) = route sfx e.
Proof.
  destruct (line_fields e) as [He|[k1 [dom [k2 [acc [He [Hne [Hns [Hk2 Hst]]]]]]]]].
  - rewrite He, spaces_app, !route_blank. reflexivity.
  - rewrite He, app_assoc, spaces_app, !route_fields by auto. reflexivity.
Qed.

(** ** The fields of the timestamp *)

(** [extract_datetime] succeeds exactly when the first shaped substring
    splits into seven tokens that decode; the fields are then assigned by
    position: day, month (by abbreviation), year, hour, minute, second,
    offset. *)
Theorem extract_datetime_fields (t : text) (dt : datetime) :
  extract_datetime t = inr dt <->
  exists m t0 t1 t2 t3 t4 t5 t6,
    regex_search datetime_regex t = Some m /\
    tokenize datetime_separators drop_empty_tokens m = [t0; t1; t2; t3; t4; t5; t6] /\
    decDecode t0 = inr (day dt) /\ monthDecode t1 = inr (month dt) /\
    decDecode t2 = inr (year dt) /\ decDecode t3 = inr (hour dt) /\
    decDecode t4 = inr (minute dt) /\ decDecode t5 = inr (second dt) /\
    decDecode t6 = inr (offset dt).
Proof.
  split.
  - unfold extract_datetime. destruct (regex_search datetime_regex t) as [m|] eqn:Em;
      [|intros H; discriminate H].
    remember (tokenize datetime_separators drop_empty_tokens m) as toks eqn:Et.
    intros H. revert H.
    destruct toks as [|t0 [|t1 [|t2 [|t3 [|t4 [|t5 [|t6 [|t7 rest]]]]]]]];
      unfold datetime_of_tokens; cbn [datetime_loop];
      try (intros H; discriminate H).
    all: destruct (decDecode t0) as [e0|d0] eqn:E0; cbn [bind]; try (intros H; discriminate H).
    all: destruct (monthDecode t1) as [e1|d1] eqn:E1; cbn [bind]; try (intros H; discriminate H).
    all: destruct (decDecode t2) as [e2|d2] eqn:E2; cbn [bind]; try (intros H; discriminate H).
    all: destruct (decDecode t3) as [e3|d3] eqn:E3; cbn [bind]; try (intros H; discriminate H).
    all: destruct (decDecode t4) as [e4|d4] eqn:E4; cbn [bind]; try (intros H; discriminate H).
    all: destruct (decDecode t5) as [e5|d5] eqn:E5; cbn [bind]; try (intros H; discriminate H).
    all: destruct (decDecode t6) as [e6|d6] eqn:E6; cbn [bind]; try (intros H; discriminate H).
    intros H. injection H as <-.
    exists m, t0, t1, t2, t3, t4, t5, t6.
    split; [reflexivity|]. split; [symmetry; exact Et|]. repeat split; assumption.
  - intros (m & t0 & t1 & t2 & t3 & t4 & t5 & t6 & Hm & Ht & H0 & H1 & H2 & H3 & H4 & H5 & H6).
    unfold extract_datetime. rewrite Hm, Ht. unfold datetime_of_tokens. cbn [datetime_loop].
    rewrite H0. cbn [bind]. rewrite H1. cbn [bind]. rewrite H2. cbn [bind].
    rewrite H3. cbn [bind]. rewrite H4. cbn [bind]. rewrite H5. cbn [bind].
    rewrite H6. cbn [bind]. destruct dt; reflexivity.
Qed.

Lemma extract_datetime_fields_witness :
  exists m t0 t1 t2 t3 t4 t5 t6,
    regex_search datetime_regex (str "x [10/Mar/2020:14:22:01 +0100] y") = Some m /\
    tokenize datetime_separators drop_empty_tokens m = [t0; t1; t2; t3; t4; t5; t6] /\
    decDecode t0 = inr 10%Z /\ monthDecode t1 = inr 3%Z /\
    decDecode t2 = inr 2020%Z /\ decDecode t3 = inr 14%Z /\
    decDecode t4 = inr 22%Z /\ decDecode t5 = inr 1%Z /\
    decDecode t6 = inr 100%Z.
Proof.
  apply (proj1 (extract_datetime_fields (str "x [10/Mar/2020:14:22:01 +0100] y")
                  (mkDatetime 2020 3 10 14 22 1 100))).
  vm_compute; reflexivity.
Defined.


(** ** Effects on the world *)











